(** * Eth1 block cache and deposit tree of the beacon node

    A shallow embedding of [beacon_node/eth1/src/cache.rs] ([BlockCache],
    [fetch_eth1_data], [fetch_eth1_data_in_range]) and of the deposit tree
    exercised by [beacon_node/eth1-http/tests/test.rs]. *)

From Stdlib Require Import Arith ZArith NArith List Lia String.
From stdpp Require Import base gmap list.

Module Eth1.

(** [Hash256] (an [H256]) as a natural number below [2^256]. *)
Definition Hash256 := N.

(** [types::Eth1Data]. *)
Record Eth1Data := mkEth1Data {
  deposit_root : Hash256;
  deposit_count : N;
  block_hash : Hash256
}.

(** The variants of [web3::error::Error] the code handles, and the crate's
    [Error] wrapping them. *)
Inductive Web3Err :=
| InvalidResponse (msg : string)
| Transport (msg : string)
| Decoder (msg : string)
| Unreachable.

Inductive Error :=
| Web3Error (e : Web3Err).

(** [crate::error::Result]. *)
Inductive result (A : Type) :=
| Ok (a : A)
| Err (e : Error).
Arguments Ok {A} a.
Arguments Err {A} e.

(** [U256::as_u64]: panics (here [None]) when the value does not fit in
    64 bits. *)
Definition as_u64 (x : N) : option N :=
  if (x <? 2 ^ 64)%N then Some x else None.

(** An [Eth1DataFetcher]: the answers of the remote node. A network or
    timeout failure of a call is the [Err] of the outer [result] (the
    future's error); [get_deposit_count] also carries an inner [result]
    (a malformed count), [get_block_hash_by_height] an [option] (an absent
    block). Block numbers are [U256]; heights passed to the per-height
    queries are [u64]. [completion_round i] is the timing of the node,
    which the code does not control: the poll round in which the future of
    the [i]-th item of the per-height stream of [update_cache] completes.
    Statements over every [Fetcher] hold under every completion order. *)
Record Fetcher := {
  get_current_block_number : result N;
  get_deposit_root : N -> result Hash256;
  get_deposit_count : N -> result (result N);
  get_block_hash_by_height : N -> result (option Hash256);
  completion_round : nat -> nat
}.

(** The network calls a counting test double of the fetcher records. *)
Inductive Call :=
| CallBlockNumber
| CallDepositRoot (height : N)
| CallDepositCount (height : N)
| CallBlockHash (height : N).

(** [BlockCache]: the [BTreeMap<U256, Eth1Data>], the [last_block]
    watermark and, for counting, the calls made on the fetcher. *)
Record BlockCache := mkBlockCache {
  cache : gmap N Eth1Data;
  last_block : N;
  calls : list Call
}.

Definition log_calls (s : BlockCache) (cs : list Call) : BlockCache :=
  mkBlockCache (cache s) (last_block s) (calls s ++ cs).

Definition set_cache (c : gmap N Eth1Data) (s : BlockCache) : BlockCache :=
  mkBlockCache c (last_block s) (calls s).

(** [BlockCache::new]. *)
Definition new_block_cache : BlockCache := mkBlockCache ∅ 0 [].

(** The end of an operation: it returns (with the state it leaves), it
    panics, or it blocks forever on a lock of the cache. *)
Inductive outcome (A : Type) :=
| Returned (r : result A) (s : BlockCache)
| Panicked
| Deadlocked.
Arguments Returned {A} r s.
Arguments Panicked {A}.
Arguments Deadlocked {A}.

(** [Future::join3]: the three results, or an error of one of them. The
    futures run concurrently; this model takes the error of the first
    failing future in argument order. *)
Definition join3 {A B C} (a : result A) (b : result B) (c : result C)
    : result (A * B * C) :=
  match a, b, c with
  | Ok x, Ok y, Ok z => Ok (x, y, z)
  | Err e, _, _ => Err e
  | _, Err e, _ => Err e
  | _, _, Err e => Err e
  end.

Definition missing_block_error : Error :=
  Web3Error (InvalidResponse "Block at given height does not exist").

(** [fetch_eth1_data(distance, current_block_number, fetcher)]. [None] is
    the panic of [as_u64]; otherwise the calls issued and the future's
    output: outer [Err] is the future's error, inner [Err] its item. *)
Definition fetch_eth1_data (f : Fetcher) (distance current_block_number : N)
    : option (list Call * result (result (N * Eth1Data))) :=
  let block_number := (current_block_number - distance)%N in
  match as_u64 block_number with
  | None => None
  | Some bn =>
      Some ([CallDepositRoot bn; CallDepositCount bn; CallBlockHash bn],
        match join3 (get_deposit_root f bn) (get_deposit_count f bn)
                    (get_block_hash_by_height f bn) with
        | Err e => Err e
        | Ok (root, count, hash) =>
            Ok (match count with
                | Err e => Err e
                | Ok c =>
                    match hash with
                    | None => Err missing_block_error
                    | Some h => Ok (block_number, mkEth1Data root c h)
                    end
                end)
        end)
  end.

(** The Rust range [start..end] over [u64]. *)
Definition range (start end_ : N) : list N :=
  map N.of_nat (seq (N.to_nat start) (N.to_nat (end_ - start))).

(** Building the futures of [fetch_eth1_data_in_range]: all calls are
    issued when the stream is built. *)
Fixpoint fetch_all (f : Fetcher) (current_block_number : N) (ds : list N)
    : option (list Call * list (result (result (N * Eth1Data)))) :=
  match ds with
  | [] => Some ([], [])
  | d :: ds' =>
      match fetch_eth1_data f d current_block_number with
      | None => None
      | Some (cs, r) =>
          match fetch_all f current_block_number ds' with
          | None => None
          | Some (cs', rs) => Some (cs ++ cs', r :: rs)
          end
      end
  end.

(** [fetch_eth1_data_in_range(start, end, current_block_number, fetcher)]:
    [stream::futures_ordered] yields the items in the order of the range. *)
Definition fetch_eth1_data_in_range (f : Fetcher) (start end_ current_block_number : N)
    : option (list Call * list (result (result (N * Eth1Data)))) :=
  fetch_all f current_block_number (range start end_).

(** The stream error of [futures_ordered] (futures 0.1): the item with an
    [Err] (a network error of the future [i], completing in round [T i])
    that is drained first. Each poll first drains every completed future
    with [?], in the order they were pushed, so the error is that of the
    earliest round, the lowest index among equal rounds. *)
Fixpoint first_stream_error (T : nat -> nat) (i : nat)
    (items : list (result (result (N * Eth1Data)))) : option (nat * Error) :=
  match items with
  | [] => None
  | Err e :: rest =>
      match first_stream_error T (S i) rest with
      | Some (t, e') => if t <? T i then Some (t, e') else Some (T i, e)
      | None => Some (T i, e)
      end
  | Ok _ :: rest => first_stream_error T (S i) rest
  end.

(** The [for_each] of [update_cache] over [futures_ordered]. Item [i] is
    yielded in round [M'], the latest completion round of the items
    [0..=i]; it is yielded only if that round is before the round [t] of
    the stream error [E], since a poll drains (and fails on) every
    completed future before it yields anything. A yielded item is
    inserted, or ends the stream with its inner error ([data?]). *)
Fixpoint for_each_commit (T : nat -> nat) (E : option (nat * Error)) (i M : nat)
    (c : gmap N Eth1Data) (items : list (result (result (N * Eth1Data))))
    : gmap N Eth1Data * result unit :=
  match items with
  | [] => (c, Ok tt)
  | r :: rest =>
      let M' := Nat.max M (T i) in
      let yield :=
        match r with
        | Ok (Ok (k, v)) => for_each_commit T E (S i) M' (<[k:=v]> c) rest
        | Ok (Err e) => (c, Err e)
        | Err e => (c, Err e)
        end in
      match E with
      | Some (t, e) => if M' <? t then yield else (c, Err e)
      | None => yield
      end
  end.

(** [fetch_eth1_data_in_range(..).for_each(..)] with completion rounds
    [T]: the map after the stream and the result of [for_each]. *)
Definition commit_stream (T : nat -> nat) (c : gmap N Eth1Data)
    (items : list (result (result (N * Eth1Data)))) : gmap N Eth1Data * result unit :=
  for_each_commit T (first_stream_error T 0 items) 0 0 c items.

(** [BlockCache::update_cache(distance)], run to completion. *)
Definition update_cache (f : Fetcher) (distance : N) (s : BlockCache) : outcome unit :=
  let s1 := log_calls s [CallBlockNumber] in
  match get_current_block_number f with
  | Err e => Returned (Err e) s1
  | Ok curr_block_number =>
      match fetch_eth1_data_in_range f 0 distance curr_block_number with
      | None => Panicked
      | Some (cs, items) =>
          let s2 := log_calls s1 cs in
          match commit_stream (completion_round f) (cache s2) items with
          | (c', Err e) => Returned (Err e) (set_cache c' s2)
          | (c', Ok _) =>
              match as_u64 curr_block_number with
              | None => Panicked
              | Some h => Returned (Ok tt) (mkBlockCache c' h (calls s2))
              end
          end
      end
  end.

Definition fetch_failed_error : Error :=
  Web3Error (InvalidResponse "Failed to fetch eth1 data").

(** [BlockCache::get_eth1_data(distance)]. The read guard of
    [self.cache.read()] in the [if let] scrutinee lives to the end of the
    [if let .. else] (edition 2018), so on a miss whose fetch succeeds
    [self.cache.write()] (parking_lot, not reentrant) blocks forever. *)
Definition get_eth1_data (f : Fetcher) (distance : N) (s : BlockCache) : outcome Eth1Data :=
  let s1 := log_calls s [CallBlockNumber] in
  match get_current_block_number f with
  | Err e => Returned (Err e) s1
  | Ok current_block_number =>
      let block_number := (current_block_number - distance)%N in
      match cache s1 !! block_number with
      | Some v => Returned (Ok v) s1
      | None =>
          match fetch_eth1_data f distance current_block_number with
          | None => Panicked
          | Some (cs, r) =>
              let s2 := log_calls s1 cs in
              match r with
              | Err e => Returned (Err e) s2
              | Ok (Ok _) => Deadlocked
              | Ok (Err _) => Returned (Err fetch_failed_error) s2
              end
          end
      end
  end.

(** [(start..end).map(|h| self.get_eth1_data(h)).flatten().collect()];
    [None]: it does not return (a panic or a deadlock). *)
Fixpoint collect_eth1_data (f : Fetcher) (hs : list N) (s : BlockCache)
    : option (list Eth1Data * BlockCache) :=
  match hs with
  | [] => Some ([], s)
  | h :: hs' =>
      match get_eth1_data f h s with
      | Panicked | Deadlocked => None
      | Returned r s1 =>
          match collect_eth1_data f hs' s1 with
          | None => None
          | Some (vs, s2) =>
              Some (match r with Ok v => v :: vs | Err _ => vs end, s2)
          end
      end
  end.

(** [BlockCache::get_eth1_data_in_range(start, end)]. *)
Definition get_eth1_data_in_range (f : Fetcher) (start end_ : N) (s : BlockCache)
    : option (list Eth1Data * BlockCache) :=
  collect_eth1_data f (range start end_) s.

(** A remote node that answers every query at head [head]. *)
Definition good_fetcher (head : N) : Fetcher := {|
  get_current_block_number := Ok head;
  get_deposit_root := fun n => Ok (n + 100)%N;
  get_deposit_count := fun n => Ok (Ok n);
  get_block_hash_by_height := fun n => Ok (Some (n + 200)%N);
  completion_round := fun _ => 0
|}.

(** An item of the stream that is not a fetched entry. *)
Definition item_fails (r : result (result (N * Eth1Data))) : Prop :=
  forall k v, r <> Ok (Ok (k, v)).

(** ** Concrete remote nodes *)

(** Answers everything except the block at height 9, which is absent. *)
Definition gap_fetcher : Fetcher := {|
  get_current_block_number := Ok 10%N;
  get_deposit_root := fun n => Ok (n + 100)%N;
  get_deposit_count := fun n => Ok (Ok n);
  get_block_hash_by_height := fun n =>
    if (n =? 9)%N then Ok None else Ok (Some (n + 200)%N);
  completion_round := fun _ => 0
|}.

(** Every block is absent. *)
Definition absent_block_fetcher : Fetcher := {|
  get_current_block_number := Ok 10%N;
  get_deposit_root := fun n => Ok (n + 100)%N;
  get_deposit_count := fun n => Ok (Ok n);
  get_block_hash_by_height := fun _ => Ok None;
  completion_round := fun _ => 0
|}.

(** Every deposit count is malformed. *)
Definition malformed_count_fetcher : Fetcher := {|
  get_current_block_number := Ok 10%N;
  get_deposit_root := fun n => Ok (n + 100)%N;
  get_deposit_count := fun _ => Ok (Err (Web3Error (Decoder "invalid deposit count")));
  get_block_hash_by_height := fun n => Ok (Some (n + 200)%N);
  completion_round := fun _ => 0
|}.

(** The block at height 9 is absent and the deposit root query for height
    8 fails on the network; the future of height 8 (the third item of the
    stream) completes first, the others one round later. *)
Definition late_gap_fetcher : Fetcher := {|
  get_current_block_number := Ok 10%N;
  get_deposit_root := fun n =>
    if (n =? 8)%N then Err (Web3Error (Transport "timeout")) else Ok (n + 100)%N;
  get_deposit_count := fun n => Ok (Ok n);
  get_block_hash_by_height := fun n =>
    if (n =? 9)%N then Ok None else Ok (Some (n + 200)%N);
  completion_round := fun i => if i =? 2 then 0 else 1
|}.

Definition old_entry : Eth1Data := mkEth1Data 1%N 1%N 1%N.

Definition cache_with_old_entry : BlockCache :=
  mkBlockCache {[10%N := old_entry]} 10%N [].

(** Whether the per-height fetch at [distance] from head [H] runs and
    fails (a network error of one of its three queries, a malformed deposit
    count or an absent block). *)
Definition height_fetch_fails (f : Fetcher) (distance H : N) : bool :=
  match fetch_eth1_data f distance H with
  | Some (_, Ok (Ok _)) => false
  | Some _ => true
  | None => false
  end.



End Eth1.

Module DepositTree.

(** Byte strings as lists of integers in [[0, 256)]; a [Hash256] is 32 of
    them. *)
Definition Bytes := list Z.

(** [types::DepositData]. *)
Record DepositData := mkDepositData {
  pubkey : Bytes;
  withdrawal_credentials : Bytes;
  amount : N;
  signature : Bytes
}.

(** Modelled from the spec: [DepositLog] of the [eth1_http] crate,
    [{index: u64, deposit_data: DepositData}]. *)
Record DepositLog := mkDepositLog {
  index : N;
  deposit_data : DepositData
}.

(** Modelled from the spec: the errors of the deposit tree. *)
Inductive DepositError :=
| OutOfOrderInsert
| InsufficientHistory
| RangeOutOfBounds.

Inductive result (A : Type) :=
| Ok (a : A)
| Err (e : DepositError).
Arguments Ok {A} a.
Arguments Err {A} e.

(** A deposit with its inclusion proof, as [get_deposits] returns it. *)
Record Deposit := mkDeposit {
  data : DepositData;
  proof : list Bytes
}.

(** Modelled from the spec: the state of [DepositTree] of the [eth1_http]
    crate: the ingested logs and their leaves, in index order. *)
Record Tree := mkTree {
  logs : list DepositLog;
  leaves : list Bytes
}.

Definition empty_tree : Tree := mkTree [] [].

Definition leaf_count (t : Tree) : nat := length (leaves t).

(** [int_to_bytes32]: the little-endian 64-bit encoding, zero-padded to
    32 bytes. *)
Fixpoint le_bytes (k : nat) (n : N) : Bytes :=
  match k with
  | O => []
  | S k' => Z.of_N (n mod 256) :: le_bytes k' (n / 256)
  end.

Definition int_to_bytes32 (n : N) : Bytes := le_bytes 8 n ++ repeat 0%Z 24.

Definition empty_deposit_data : DepositData := mkDepositData [] [] 0 [].

(** The logs of the deposits [ds], indexed from [i]. *)
Fixpoint mk_logs (i : nat) (ds : list DepositData) : list DepositLog :=
  match ds with
  | [] => []
  | d :: ds' => mkDepositLog (N.of_nat i) d :: mk_logs (S i) ds'
  end.

Section Merkle.

(** [hash]: SHA-256 of a byte string; [deposit_leaf]: the [tree_hash_root]
    of a [DepositData]. Everything below holds for any such functions. *)
Variable hash : Bytes -> Bytes.
Variable deposit_leaf : DepositData -> Bytes.

Definition hash32_concat (a b : Bytes) : Bytes := hash (a ++ b).

(** The root of an empty subtree of height [k]. *)
Fixpoint zero_hash (k : nat) : Bytes :=
  match k with
  | O => repeat 0%Z 32
  | S k' => let z := zero_hash k' in hash32_concat z z
  end.

(** Modelled from the spec: [insert_log] appends [hash(deposit_data)] when
    [log.index] is the leaf count and fails with [OutOfOrderInsert],
    leaving the tree as it was, otherwise. *)
Definition insert_log (t : Tree) (log : DepositLog) : result unit * Tree :=
  if (index log =? N.of_nat (leaf_count t))%N
  then (Ok tt, mkTree (logs t ++ [log]) (leaves t ++ [deposit_leaf (deposit_data log)]))
  else (Err OutOfOrderInsert, t).

Fixpoint insert_logs (t : Tree) (ls : list DepositLog) : result unit * Tree :=
  match ls with
  | [] => (Ok tt, t)
  | l :: ls' =>
      match insert_log t l with
      | (Ok _, t') => insert_logs t' ls'
      | (Err e, t') => (Err e, t')
      end
  end.

(** The nodes one level up: adjacent pairs hashed, a last odd node paired
    with the zero hash [z] of its level. *)
Fixpoint pair_up (z : Bytes) (l : list Bytes) : list Bytes :=
  match l with
  | [] => []
  | [a] => [hash32_concat a z]
  | a :: b :: r => hash32_concat a b :: pair_up z r
  end.

(** Modelled from the spec: the per-level intermediate hashes over the
    leaves; level [k] holds the roots of the height-[k] subtrees. *)
Fixpoint level (k : nat) (l : list Bytes) : list Bytes :=
  match k with
  | O => l
  | S k' => pair_up (zero_hash k') (level k' l)
  end.

Definition tree_root (depth : nat) (l : list Bytes) : Bytes :=
  nth 0 (level depth l) (zero_hash depth).

Definition sibling_index (q : nat) : nat :=
  if Nat.odd q then q - 1 else q + 1.

(** Modelled from the spec: the sibling hashes of leaf [i], bottom-up. *)
Definition generate_proof (depth : nat) (l : list Bytes) (i : nat) : list Bytes :=
  map (fun k => nth (sibling_index (Nat.shiftr i k)) (level k l) (zero_hash k)) (seq 0 depth).

(** Modelled from the spec: the root at [deposit_count], the depth-[depth]
    subtree root mixed in with the count. *)
Definition root_at (depth : nat) (deposit_count : N) (l : list Bytes) : Bytes :=
  hash32_concat (tree_root depth l) (int_to_bytes32 deposit_count).

(** The current root of the tree. *)
Definition deposit_root (t : Tree) : Bytes :=
  root_at 32 (N.of_nat (leaf_count t)) (leaves t).

(** Modelled from the spec: [get_deposits(start..end, deposit_count,
    depth)], computed from [leaves[0..deposit_count)] only. *)
Definition get_deposits (t : Tree) (start end_ deposit_count : N) (depth : nat)
    : result (Bytes * list Deposit) :=
  if (N.of_nat (leaf_count t) <? deposit_count)%N then Err InsufficientHistory
  else if (deposit_count <? end_)%N then Err RangeOutOfBounds
  else
    let l := firstn (N.to_nat deposit_count) (leaves t) in
    let mix_in := int_to_bytes32 deposit_count in
    Ok (root_at depth deposit_count l,
        map (fun i => mkDeposit (deposit_data (nth i (logs t) (mkDepositLog 0 empty_deposit_data)))
                                (generate_proof depth l i ++ [mix_in]))
            (seq (N.to_nat start) (N.to_nat (end_ - start)))).

(** Modelled from the spec: [merkle_proof::verify_merkle_proof]; bit [i]
    of [index] says whether the branch node is the left sibling. *)
Fixpoint merkle_root_from_branch (node : Bytes) (branch : list Bytes) (index i : nat) : Bytes :=
  match branch with
  | [] => node
  | b :: bs =>
      merkle_root_from_branch
        (if Nat.land (Nat.shiftr index i) 1 =? 1 then hash32_concat b node
         else hash32_concat node b) bs index (S i)
  end.

Definition verify_merkle_proof (leaf : Bytes) (branch : list Bytes) (depth index : nat)
    (root : Bytes) : bool :=
  (length branch =? depth) && bool_decide (merkle_root_from_branch leaf branch index 0 = root).

(** Modelled from the spec: the root of the complete binary tree of height
    [d] whose leaves are [l] padded with zero leaves. *)
Fixpoint subtree_root (d : nat) (l : list Bytes) : Bytes :=
  match d with
  | O => match l with [] => zero_hash 0 | a :: _ => a end
  | S d' =>
      match l with
      | [] => zero_hash (S d')
      | _ =>
          if (N.of_nat (length l) <=? 2 ^ N.of_nat d')%N
          then hash32_concat (subtree_root d' l) (zero_hash d')
          else hash32_concat (subtree_root d' (firstn (2 ^ d') l))
                             (subtree_root d' (skipn (2 ^ d') l))
      end
  end.

(** Modelled from the spec: the root the deposit contract reports after the
    deposits [ds], [hash(subtree_root_depth32 || int_to_bytes32(count))]. *)
Definition contract_deposit_root (ds : list DepositData) : Bytes :=
  hash32_concat (subtree_root 32 (map deposit_leaf ds)) (int_to_bytes32 (N.of_nat (length ds))).

End Merkle.

(** A toy hash for evaluation. *)
Definition toy_hash (l : Bytes) : Bytes :=
  [fold_left (fun acc x => (acc * 31 + x) mod 256)%Z l 7%Z].

Definition toy_leaf (d : DepositData) : Bytes := [Z.of_N (amount d)].

Definition toy_deposits : list DepositData :=
  map (fun a => mkDepositData [] [] a []) [3; 5; 7]%N.

End DepositTree.

Module Eth1Facts.

Import Eth1.

(** ** Helper lemmas *)

Lemma as_u64_small (x : N) : (x < 2 ^ 64)%N -> as_u64 x = Some x.
Proof. intros Hx. unfold as_u64. apply N.ltb_lt in Hx. now rewrite Hx. Qed.

Lemma range0_In (i d : N) : In i (range 0 d) <-> (i < d)%N.
Proof.
  unfold range. rewrite N.sub_0_r, in_map_iff. split.
  - intros (n & <- & Hn). apply in_seq in Hn. lia.
  - intros Hi. exists (N.to_nat i). split; [lia|]. apply in_seq. lia.
Qed.

Lemma fetch_key f d H cs k v :
  fetch_eth1_data f d H = Some (cs, Ok (Ok (k, v))) -> k = (H - d)%N.
Proof.
  unfold fetch_eth1_data. destruct (as_u64 _); [|discriminate].
  destruct (join3 _ _ _) as [[[r c] h]|]; intros E; inversion E; subst.
  destruct c as [c|]; [|discriminate]. destruct h; congruence.
Qed.

Lemma fetch_same_height f i j H :
  (H - i)%N = (H - j)%N -> fetch_eth1_data f i H = fetch_eth1_data f j H.
Proof. intros E. unfold fetch_eth1_data. now rewrite E. Qed.

Lemma fetch_no_panic f d H :
  (H < 2 ^ 64)%N -> exists cs r, fetch_eth1_data f d H = Some (cs, r).
Proof.
  intros HH. unfold fetch_eth1_data. rewrite as_u64_small by lia. eauto.
Qed.

Lemma fetch_all_no_panic f H ds :
  (H < 2 ^ 64)%N -> exists cs rs, fetch_all f H ds = Some (cs, rs).
Proof.
  intros HH. induction ds as [|d ds IH]; simpl; [eauto|].
  destruct (fetch_no_panic f d H HH) as (cs & r & ->).
  destruct IH as (cs' & rs & ->). eauto.
Qed.

Lemma fetch_all_in_l f H ds cs rs d :
  fetch_all f H ds = Some (cs, rs) -> In d ds ->
  exists cs' r, fetch_eth1_data f d H = Some (cs', r) /\ In r rs.
Proof.
  revert cs rs. induction ds as [|d0 ds IH]; simpl; intros cs rs E Hin; [done|].
  destruct (fetch_eth1_data f d0 H) as [[cs0 r0]|] eqn:E0; [|discriminate].
  destruct (fetch_all f H ds) as [[cs1 rs1]|] eqn:E1; [|discriminate].
  inversion E; subst. destruct Hin as [<-|Hin].
  - exists cs0, r0. simpl. auto.
  - destruct (IH _ _ eq_refl Hin) as (cs' & r & ? & ?). exists cs', r. simpl. auto.
Qed.

Lemma fetch_all_in_r f H ds cs rs r :
  fetch_all f H ds = Some (cs, rs) -> In r rs ->
  exists d cs', In d ds /\ fetch_eth1_data f d H = Some (cs', r).
Proof.
  revert cs rs. induction ds as [|d0 ds IH]; simpl; intros cs rs E Hin.
  - inversion E; subst. done.
  - destruct (fetch_eth1_data f d0 H) as [[cs0 r0]|] eqn:E0; [|discriminate].
    destruct (fetch_all f H ds) as [[cs1 rs1]|] eqn:E1; [|discriminate].
    inversion E; subst. destruct Hin as [<-|Hin].
    + exists d0, cs0. auto.
    + destruct (IH _ _ eq_refl Hin) as (d & cs' & ? & ?). exists d, cs'. auto.
Qed.

Lemma fetch_all_nth f H ds cs rs n r :
  fetch_all f H ds = Some (cs, rs) -> nth_error rs n = Some r ->
  exists d cs', nth_error ds n = Some d /\ fetch_eth1_data f d H = Some (cs', r).
Proof.
  revert cs rs n. induction ds as [|d0 ds IH]; simpl; intros cs rs n E Hn.
  - inversion E; subst. destruct n; discriminate.
  - destruct (fetch_eth1_data f d0 H) as [[cs0 r0]|] eqn:E0; [|discriminate].
    destruct (fetch_all f H ds) as [[cs1 rs1]|] eqn:E1; [|discriminate].
    inversion E; subst. destruct n as [|n]; simpl in Hn.
    + inversion Hn; subst. eauto.
    + exact (IH _ _ _ eq_refl Hn).
Qed.

Lemma nth_error_seq_some (a len n y : nat) :
  nth_error (seq a len) n = Some y -> y = a + n /\ n < len.
Proof.
  revert a n. induction len as [|len IH]; intros a n E; [destruct n; discriminate|].
  destruct n as [|n]; simpl in E.
  - inversion E. lia.
  - destruct (IH _ _ E). lia.
Qed.

Lemma nth_error_range0 (d : N) (n : nat) (x : N) :
  nth_error (range 0 d) n = Some x -> x = N.of_nat n /\ n < N.to_nat d.
Proof.
  unfold range. rewrite N.sub_0_r, nth_error_map.
  destruct (nth_error (seq _ _) n) as [y|] eqn:E; [|discriminate].
  simpl. intros Hx. inversion Hx; subst. apply nth_error_seq_some in E as [-> ?].
  split; [reflexivity|lia].
Qed.

Lemma fetch_all_nth_l f H ds cs rs n x :
  fetch_all f H ds = Some (cs, rs) -> nth_error ds n = Some x ->
  exists cs' r, fetch_eth1_data f x H = Some (cs', r) /\ nth_error rs n = Some r.
Proof.
  revert cs rs n. induction ds as [|d0 ds IH]; simpl; intros cs rs n E Hn.
  - destruct n; discriminate.
  - destruct (fetch_eth1_data f d0 H) as [[cs0 r0]|] eqn:E0; [|discriminate].
    destruct (fetch_all f H ds) as [[cs1 rs1]|] eqn:E1; [|discriminate].
    inversion E; subst. destruct n as [|n]; simpl in Hn.
    + inversion Hn; subst. exists cs0, r0. auto.
    + exact (IH _ _ _ eq_refl Hn).
Qed.

Lemma nth_error_range0_inv (d : N) (n : nat) :
  n < N.to_nat d -> nth_error (range 0 d) n = Some (N.of_nat n).
Proof.
  intros Hn. unfold range. rewrite N.sub_0_r, nth_error_map.
  assert (G : forall a len n, n < len -> nth_error (seq a len) n = Some (a + n)).
  { intros a len. revert a. induction len as [|len IH]; intros a m Hm; [lia|].
    destruct m as [|m]; simpl; [f_equal; lia|]. rewrite IH by lia. f_equal; lia. }
  rewrite G by lia. reflexivity.
Qed.

(** One step of the stream: the item is yielded and inserted, or the
    stream ends there with the item's error or the stream error. *)
Lemma for_each_commit_step T E i M c r rest c' res :
  for_each_commit T E i M c (r :: rest) = (c', res) ->
  (exists k v, r = Ok (Ok (k, v)) /\
     for_each_commit T E (S i) (Nat.max M (T i)) (<[k:=v]> c) rest = (c', res)) \/
  (c' = c /\ exists e, res = Err e /\
     (r = Ok (Err e) \/ r = Err e \/
      exists t, E = Some (t, e) /\ t <= Nat.max M (T i))).
Proof.
  simpl. cbv zeta. intros Hc.
  destruct E as [[t e]|].
  - destruct (Nat.ltb_spec (Nat.max M (T i)) t) as [Hlt|Hge].
    + destruct r as [[[k v]|e']|e'].
      * left. eauto.
      * inversion Hc; subst. right. split; [reflexivity|]. exists e'. auto.
      * inversion Hc; subst. right. split; [reflexivity|]. exists e'. auto.
    + inversion Hc; subst. right. split; [reflexivity|]. exists e.
      split; [reflexivity|]. right; right. eauto.
  - destruct r as [[[k v]|e']|e'].
    + left. eauto.
    + inversion Hc; subst. right. split; [reflexivity|]. exists e'. auto.
    + inversion Hc; subst. right. split; [reflexivity|]. exists e'. auto.
Qed.

Lemma for_each_commit_frame T E i M c items c' r :
  for_each_commit T E i M c items = (c', r) ->
  forall k, c' !! k = c !! k \/
            exists v, In (Ok (Ok (k, v))) items /\ c' !! k = Some v.
Proof.
  revert i M c. induction items as [|it items IH]; intros i M c Hc k.
  - simpl in Hc. inversion Hc; auto.
  - destruct (for_each_commit_step _ _ _ _ _ _ _ _ _ Hc) as [(k0 & v0 & -> & Hc')|(-> & _)].
    2:{ left. reflexivity. }
    destruct (IH _ _ _ Hc' k) as [Hk|(v & Hin & Hv)].
    + rewrite Hk. destruct (decide (k = k0)) as [->|Hne].
      * right. exists v0. split; [left; reflexivity|]. apply lookup_insert_eq.
      * left. apply lookup_insert_ne. congruence.
    + right. exists v. split; [right; exact Hin|exact Hv].
Qed.

Lemma for_each_commit_ok_all T E i M c items c' u :
  for_each_commit T E i M c items = (c', Ok u) ->
  forall r, In r items -> exists k v, r = Ok (Ok (k, v)).
Proof.
  revert i M c. induction items as [|it items IH]; intros i M c Hc r Hin; [done|].
  destruct (for_each_commit_step _ _ _ _ _ _ _ _ _ Hc) as [(k0 & v0 & -> & Hc')|(_ & e & He & _)].
  - destruct Hin as [<-|Hin]; eauto.
  - discriminate.
Qed.

Lemma for_each_commit_ok_in T E i M c items c' u k v :
  for_each_commit T E i M c items = (c', Ok u) -> In (Ok (Ok (k, v))) items ->
  exists v', In (Ok (Ok (k, v'))) items /\ c' !! k = Some v'.
Proof.
  revert i M c. induction items as [|it items IH]; intros i M c Hc Hin; [done|].
  destruct (for_each_commit_step _ _ _ _ _ _ _ _ _ Hc) as [(k0 & v0 & -> & Hc')|(_ & e & He & _)].
  2:{ discriminate. }
  destruct Hin as [Heq|Hin].
  - inversion Heq; subst k0 v0.
    destruct (for_each_commit_frame _ _ _ _ _ _ _ _ Hc' k) as [Hk|(v' & Hin' & Hv')].
    + exists v. split; [left; reflexivity|]. rewrite Hk. apply lookup_insert_eq.
    + exists v'. split; [right|]; auto.
  - destruct (IH _ _ _ Hc' Hin) as (v' & Hin' & Hv'). exists v'. split; [right|]; auto.
Qed.

Lemma commit_stream_frame T c items c' r :
  commit_stream T c items = (c', r) ->
  forall k, c' !! k = c !! k \/
            exists v, In (Ok (Ok (k, v))) items /\ c' !! k = Some v.
Proof. apply for_each_commit_frame. Qed.

Lemma commit_stream_ok_all T c items c' u :
  commit_stream T c items = (c', Ok u) ->
  forall r, In r items -> exists k v, r = Ok (Ok (k, v)).
Proof. apply for_each_commit_ok_all. Qed.

Lemma commit_stream_fails T c items r :
  In r items -> item_fails r -> exists c' e, commit_stream T c items = (c', Err e).
Proof.
  intros Hin Hf. destruct (commit_stream T c items) as [c' [u|e]] eqn:EC; eauto.
  destruct (commit_stream_ok_all _ _ _ _ _ EC r Hin) as (k & v & ->).
  exfalso. exact (Hf k v eq_refl).
Qed.

Lemma commit_stream_ok_in T c items c' u k v :
  commit_stream T c items = (c', Ok u) -> In (Ok (Ok (k, v))) items ->
  exists v', In (Ok (Ok (k, v'))) items /\ c' !! k = Some v'.
Proof. apply for_each_commit_ok_in. Qed.


(** Without a network error there is no stream error. *)
Lemma first_stream_error_none T i items :
  (forall r, In r items -> exists x, r = Ok x) -> first_stream_error T i items = None.
Proof.
  revert i. induction items as [|it items IH]; intros i Hok; simpl; [reflexivity|].
  destruct (Hok it (or_introl eq_refl)) as (x & ->).
  apply IH. intros r Hin. apply Hok. right. exact Hin.
Qed.


(** Without a stream error, the items before the first failing one are
    all committed: each key of that prefix holds a value of the prefix. *)
Lemma for_each_commit_prefix T i M c items c' res n e k :
  for_each_commit T None i M c items = (c', res) ->
  nth_error items n = Some (Ok (Err e)) ->
  (forall m, m < n -> exists k v, nth_error items m = Some (Ok (Ok (k, v)))) ->
  res = Err e /\
  ((c' !! k = c !! k /\ forall m v, m < n -> nth_error items m <> Some (Ok (Ok (k, v)))) \/
   exists m v, m < n /\ nth_error items m = Some (Ok (Ok (k, v))) /\ c' !! k = Some v).
Proof.
  revert i M c n. induction items as [|x items IH]; intros i M c n Hc Hn Hb.
  { destruct n; discriminate. }
  destruct n as [|n].
  - simpl in Hn. inversion Hn; subst x.
    destruct (for_each_commit_step _ _ _ _ _ _ _ _ _ Hc)
      as [(k0 & v0 & Heq & _)|(-> & e' & He & [Heq|[Heq|(t & Et & _)]])];
      try discriminate.
    inversion Heq; subst. split; [reflexivity|]. left. split; [reflexivity|].
    intros m v Hm. lia.
  - destruct (Hb 0 ltac:(lia)) as (k0 & v0 & Hx). simpl in Hx. inversion Hx; subst x.
    destruct (for_each_commit_step _ _ _ _ _ _ _ _ _ Hc)
      as [(k1 & v1 & Heq & Hc')|(-> & e' & He & [Heq|[Heq|(t & Et & _)]])];
      try discriminate.
    inversion Heq; subst k1 v1.
    assert (Hb' : forall m, m < n -> exists k v, nth_error items m = Some (Ok (Ok (k, v)))).
    { intros m Hm. exact (Hb (S m) ltac:(lia)). }
    destruct (IH _ _ _ _ Hc' Hn Hb') as [Hres [(Hk & Hnone)|(m & v & Hm & Hmv & Hv)]].
    + split; [exact Hres|]. destruct (decide (k = k0)) as [->|Hne].
      * right. exists 0, v0. split; [lia|]. split; [reflexivity|].
        rewrite Hk. apply lookup_insert_eq.
      * left. split; [rewrite Hk; apply lookup_insert_ne; congruence|].
        intros [|m] v Hm; simpl.
        -- intros Heq'. inversion Heq'. congruence.
        -- apply Hnone. lia.
    + split; [exact Hres|]. right. exists (S m), v. split; [lia|]. auto.
Qed.

Lemma commit_stream_agree_gen T E i M items c1 c2 c1' u :
  for_each_commit T E i M c1 items = (c1', Ok u) ->
  (forall k, (forall v, ~ In (Ok (Ok (k, v))) items) -> c1 !! k = c2 !! k) ->
  for_each_commit T E i M c2 items = (c1', Ok u).
Proof.
  revert i M c1 c2. induction items as [|it items IH]; intros i M c1 c2 Hc Hag.
  - simpl in Hc |- *. inversion Hc; subst. f_equal. apply map_eq. intros k.
    symmetry. apply Hag. intros v [].
  - destruct (for_each_commit_step _ _ _ _ _ _ _ _ _ Hc)
      as [(k0 & v0 & -> & Hc')|(_ & e & He & _)]; [|discriminate].
    assert (Hrest : for_each_commit T E (S i) (Nat.max M (T i)) (<[k0:=v0]> c2) items = (c1', Ok u)).
    { apply (IH _ _ _ _ Hc'). intros k Hk. destruct (decide (k = k0)) as [->|Hne].
      - rewrite !lookup_insert_eq. reflexivity.
      - rewrite !lookup_insert_ne by congruence. apply Hag.
        intros v [Heq|Hin]; [inversion Heq; congruence|exact (Hk v Hin)]. }
    simpl. cbv zeta. destruct E as [[t e]|]; [|exact Hrest].
    simpl in Hc. cbv zeta in Hc. destruct (Nat.max M (T i) <? t); [exact Hrest|].
    inversion Hc.
Qed.

Lemma as_u64_some (x y : N) : as_u64 x = Some y -> y = x /\ (x < 2 ^ 64)%N.
Proof.
  unfold as_u64. destruct (N.ltb_spec x (2 ^ 64)); intros E; inversion E; subst; auto.
Qed.

(** Every entry [update_cache] leaves is either the one there before or a
    value fetched in this call for a height of its range. *)
Lemma update_cache_frame f d s r s' :
  update_cache f d s = Returned r s' ->
  forall k, cache s' !! k = cache s !! k \/
    exists H i cs v, get_current_block_number f = Ok H /\ (i < d)%N /\
      fetch_eth1_data f i H = Some (cs, Ok (Ok (k, v))) /\ cache s' !! k = Some v.
Proof.
  unfold update_cache. intros E k.
  destruct (get_current_block_number f) as [H|e] eqn:EH.
  2:{ inversion E; subst. left. reflexivity. }
  destruct (fetch_eth1_data_in_range f 0 d H) as [[cs items]|] eqn:EF; [|discriminate].
  destruct (commit_stream _ _ items) as [c' [u|e]] eqn:EC.
  - destruct (as_u64 H); inversion E; subst. simpl.
    destruct (commit_stream_frame _ _ _ _ _ EC k) as [Hk|(v & Hin & Hv)]; [left; exact Hk|].
    destruct (fetch_all_in_r _ _ _ _ _ _ EF Hin) as (i & cs' & Hi & Ef).
    right. exists H, i, cs', v. apply range0_In in Hi. auto.
  - inversion E; subst. simpl.
    destruct (commit_stream_frame _ _ _ _ _ EC k) as [Hk|(v & Hin & Hv)]; [left; exact Hk|].
    destruct (fetch_all_in_r _ _ _ _ _ _ EF Hin) as (i & cs' & Hi & Ef).
    right. exists H, i, cs', v. apply range0_In in Hi. auto.
Qed.

Lemma update_cache_error_last_block f d s e s' :
  update_cache f d s = Returned (Err e) s' -> last_block s' = last_block s.
Proof.
  unfold update_cache. intros E.
  destruct (get_current_block_number f) as [H|e'].
  2:{ inversion E; reflexivity. }
  destruct (fetch_eth1_data_in_range f 0 d H) as [[cs items]|]; [|discriminate].
  destruct (commit_stream _ _ items) as [c' [u|e']].
  - destruct (as_u64 H); discriminate.
  - inversion E; reflexivity.
Qed.

(** A successful [update_cache] caches every height [H - i], [i < d], with
    the value fetched for it, and moves [last_block] to [H]. *)
Lemma update_cache_success f d s u s' :
  update_cache f d s = Returned (Ok u) s' ->
  exists H, get_current_block_number f = Ok H /\ last_block s' = H /\
    calls s' = calls s ++ [CallBlockNumber] ++
               (match fetch_eth1_data_in_range f 0 d H with
                | Some (cs, _) => cs | None => [] end) /\
    forall i, (i < d)%N -> exists cs v,
      fetch_eth1_data f i H = Some (cs, Ok (Ok ((H - i)%N, v))) /\
      cache s' !! (H - i)%N = Some v.
Proof.
  unfold update_cache. intros E.
  destruct (get_current_block_number f) as [H|e] eqn:EH; [|discriminate].
  destruct (fetch_eth1_data_in_range f 0 d H) as [[cs items]|] eqn:EF; [|discriminate].
  destruct (commit_stream _ _ items) as [c' [u'|e]] eqn:EC; [|discriminate].
  destruct (as_u64 H) as [h|] eqn:Eh; [|discriminate].
  apply as_u64_some in Eh as [-> _].
  inversion E; subst. exists H. simpl. split; [reflexivity|]. split; [reflexivity|].
  split; [rewrite EF; simpl; rewrite <- app_assoc; reflexivity|].
  intros i Hi. apply range0_In in Hi.
  destruct (fetch_all_in_l _ _ _ _ _ _ EF Hi) as (cs1 & r & Ef & Hin).
  destruct (commit_stream_ok_all _ _ _ _ _ EC r Hin) as (k & v & ->).
  pose proof (fetch_key _ _ _ _ _ _ Ef) as ->.
  destruct (commit_stream_ok_in _ _ _ _ _ _ _ EC Hin) as (v' & Hin' & Hv').
  destruct (fetch_all_in_r _ _ _ _ _ _ EF Hin') as (j & cs2 & _ & Ej).
  pose proof (fetch_key _ _ _ _ _ _ Ej) as Hk.
  exists cs2, v'. rewrite (fetch_same_height f i j H Hk). auto.
Qed.

(** [get_eth1_data] keeps [last_block] and every entry already cached. *)
Lemma get_eth1_data_keeps f d s r s' :
  get_eth1_data f d s = Returned r s' ->
  last_block s' = last_block s /\
  forall k v, cache s !! k = Some v -> cache s' !! k = Some v.
Proof.
  unfold get_eth1_data. intros E.
  destruct (get_current_block_number f) as [H|e] eqn:EH.
  2:{ inversion E; subst. auto. }
  destruct (cache _ !! _) as [v0|] eqn:Ec.
  { inversion E; subst. auto. }
  destruct (fetch_eth1_data f d H) as [[cs rr]|] eqn:Ef; [|discriminate].
  destruct rr as [[[k0 v0]|e]|e]; inversion E; subst; simpl; split; auto.
Qed.

(** An error of [get_eth1_data] leaves the cache and [last_block] as they
    were. *)
Lemma get_eth1_data_error_state f d s e s' :
  get_eth1_data f d s = Returned (Err e) s' ->
  cache s' = cache s /\ last_block s' = last_block s.
Proof.
  unfold get_eth1_data. intros E.
  destruct (get_current_block_number f) as [H|e'].
  2:{ inversion E; subst. auto. }
  destruct (cache _ !! _); [discriminate|].
  destruct (fetch_eth1_data f d H) as [[cs rr]|]; [|discriminate].
  destruct rr as [[[k0 v0]|e']|e']; inversion E; subst; auto.
Qed.

(** [get_eth1_data] returns only without touching the cache map or
    [last_block]; a value it returns is the one cached at [H - distance],
    returned after the head query alone. *)
Lemma get_eth1_data_returned f d s r s' :
  get_eth1_data f d s = Returned r s' ->
  cache s' = cache s /\ last_block s' = last_block s /\
  forall v, r = Ok v -> exists H, get_current_block_number f = Ok H /\
    cache s !! (H - d)%N = Some v /\ s' = log_calls s [CallBlockNumber].
Proof.
  unfold get_eth1_data. cbv zeta. intros E.
  destruct (get_current_block_number f) as [H|e] eqn:EH.
  2:{ inversion E; subst. split; [reflexivity|]. split; [reflexivity|].
      intros v Hv; discriminate. }
  cbn [cache log_calls] in E.
  destruct (cache s !! (H - d)%N) as [v0|] eqn:Ec.
  { inversion E; subst. split; [reflexivity|]. split; [reflexivity|].
    intros v Hv. inversion Hv; subst. eauto. }
  destruct (fetch_eth1_data f d H) as [[cs [[x|e]|e]]|]; try discriminate;
    inversion E; subst; (split; [reflexivity|]); (split; [reflexivity|]);
    intros v Hv; discriminate.
Qed.

(** Without a network error among the distances [j < d], if [i] is the
    first failing distance, with the inner error [e], [update_cache(d)]
    returns [e] and every height [H - j], [j < i], holds the value fetched
    for it, under every completion order. *)
Lemma update_cache_prefix f d s H i cs e :
  get_current_block_number f = Ok H -> (H < 2 ^ 64)%N -> (i < d)%N ->
  (forall j, (j < d)%N -> exists cs' x, fetch_eth1_data f j H = Some (cs', Ok x)) ->
  (forall j, (j < i)%N -> height_fetch_fails f j H = false) ->
  fetch_eth1_data f i H = Some (cs, Ok (Err e)) ->
  exists s', update_cache f d s = Returned (Err e) s' /\
    forall j, (j < i)%N -> exists cs' v,
      fetch_eth1_data f j H = Some (cs', Ok (Ok ((H - j)%N, v))) /\
      cache s' !! (H - j)%N = Some v.
Proof.
  intros EH HH Hi Hnet Hpre Ei.
  destruct (fetch_all_no_panic f H (range 0 d) HH) as (cs0 & items & EF).
  assert (Hitem : forall j, (j < d)%N -> exists cs' r,
            fetch_eth1_data f j H = Some (cs', r) /\ nth_error items (N.to_nat j) = Some r).
  { intros j Hj. apply (fetch_all_nth_l _ _ _ _ _ _ _ EF).
    rewrite nth_error_range0_inv by lia. rewrite N2Nat.id. reflexivity. }
  assert (HE : first_stream_error (completion_round f) 0 items = None).
  { apply first_stream_error_none. intros r Hin.
    destruct (fetch_all_in_r _ _ _ _ _ _ EF Hin) as (j & cs' & Hj & Ej).
    apply range0_In in Hj. destruct (Hnet j Hj) as (cs2 & x & Ex).
    rewrite Ej in Ex. inversion Ex; subst. eauto. }
  assert (Hok : forall j, (j < i)%N -> exists cs' k v,
            fetch_eth1_data f j H = Some (cs', Ok (Ok (k, v))) /\
            nth_error items (N.to_nat j) = Some (Ok (Ok (k, v)))).
  { intros j Hj. destruct (Hitem j ltac:(lia)) as (cs' & r & Ej & Hn).
    specialize (Hpre j Hj). unfold height_fetch_fails in Hpre. rewrite Ej in Hpre.
    destruct r as [[[k v]|e']|e']; try discriminate. eauto. }
  assert (Hb : forall m, m < N.to_nat i -> exists k v, nth_error items m = Some (Ok (Ok (k, v)))).
  { intros m Hm. destruct (Hok (N.of_nat m) ltac:(lia)) as (cs' & k & v & _ & Hn').
    rewrite Nat2N.id in Hn'. eauto. }
  destruct (Hitem i Hi) as (cs' & r & Ei' & Hn).
  rewrite Ei in Ei'. injection Ei' as _ Hr. subst r.
  set (s2 := log_calls (log_calls s [CallBlockNumber]) cs0).
  destruct (for_each_commit (completion_round f) None 0 0 (cache s2) items) as [c' res] eqn:EC.
  destruct (for_each_commit_prefix _ _ _ _ _ _ _ _ _ H EC Hn Hb) as [-> _].
  exists (set_cache c' s2). split.
  { unfold update_cache, fetch_eth1_data_in_range. cbv zeta. rewrite EH, EF. fold s2.
    unfold commit_stream. rewrite HE, EC. reflexivity. }
  intros j Hj. destruct (Hok j Hj) as (cs4 & k & v & Ej & Hn').
  pose proof (fetch_key _ _ _ _ _ _ Ej) as ->.
  destruct (for_each_commit_prefix _ _ _ _ _ _ _ _ _ (H - j)%N EC Hn Hb)
    as [_ [(_ & Hnone)|(m & v' & Hm & Hmv & Hv)]].
  - exfalso. exact (Hnone (N.to_nat j) v ltac:(lia) Hn').
  - destruct (fetch_all_nth _ _ _ _ _ _ _ EF Hmv) as (x & cs2 & Hx & Ex).
    apply nth_error_range0 in Hx as [-> _].
    pose proof (fetch_key _ _ _ _ _ _ Ex) as Hk.
    exists cs2, v'. rewrite (fetch_same_height f j (N.of_nat m) H Hk).
    split; [exact Ex|]. unfold set_cache. cbn [cache]. exact Hv.
Qed.

Example update_cache_three :
  exists s', update_cache (good_fetcher 10) 3 new_block_cache = Returned (Ok tt) s' /\
    cache s' !! 8%N = Some (mkEth1Data 108%N 8%N 208%N) /\ cache s' !! 7%N = None /\
    last_block s' = 10%N.
Proof. vm_compute. eexists. split; [reflexivity|]. vm_compute. auto. Qed.

(** ** C1: failure of [update_cache] *)

(** C1 (counterexample): the head is 10, the block at height 9 is absent.
    [update_cache(2)] fails, but the entry for height 10, fetched before
    the failing height in stream order, is already in the cache. *)
Lemma update_cache_partial_commit :
  exists s', update_cache gap_fetcher 2 new_block_cache = Returned (Err missing_block_error) s' /\
    cache new_block_cache !! 10%N = None /\
    cache s' !! 10%N = Some (mkEth1Data 110%N 10%N 210%N).
Proof. vm_compute. eexists. split; [reflexivity|]. vm_compute. auto. Qed.

(** C1 (amended): if the head query returns [H] (below [2^64]) and the
    per-height fetch of some distance [i < d] fails, then [update_cache(d)]
    fails and [last_block] is unchanged; it does not roll back: each entry
    of the cache is either the one before the call or, at a height
    [H - j] with [j < d], the value fetched for it in this call. If no
    distance [j < d] has a network error and [i] is the first failing
    distance, every height [H - j] with [j < i] holds the value fetched for
    it, whatever the completion order. *)
Theorem update_cache_failure_keeps_watermark (f : Fetcher) (d : N) (s : BlockCache) (H i : N) :
  get_current_block_number f = Ok H -> (H < 2 ^ 64)%N -> (i < d)%N ->
  height_fetch_fails f i H = true ->
  exists e s', update_cache f d s = Returned (Err e) s' /\
    last_block s' = last_block s /\
    (forall k, cache s' !! k = cache s !! k \/
      exists j cs v, (j < d)%N /\ k = (H - j)%N /\
        fetch_eth1_data f j H = Some (cs, Ok (Ok (k, v))) /\ cache s' !! k = Some v) /\
    ((forall j, (j < d)%N -> exists cs x, fetch_eth1_data f j H = Some (cs, Ok x)) ->
     (forall j, (j < i)%N -> height_fetch_fails f j H = false) ->
     forall j, (j < i)%N -> exists cs v,
       fetch_eth1_data f j H = Some (cs, Ok (Ok ((H - j)%N, v))) /\
       cache s' !! (H - j)%N = Some v).
Proof.
  intros EH HH Hi Hf.
  destruct (fetch_all_no_panic f H (range 0 d) HH) as (cs & items & EF).
  destruct (fetch_all_in_l _ _ _ _ _ _ EF (proj2 (range0_In i d) Hi))
    as (cs1 & r & Er & Hin).
  assert (Hr : item_fails r).
  { intros k v ->. unfold height_fetch_fails in Hf. rewrite Er in Hf. discriminate. }
  set (s2 := log_calls (log_calls s [CallBlockNumber]) cs).
  destruct (commit_stream_fails (completion_round f) (cache s2) _ _ Hin Hr) as (c' & e & EC).
  assert (E : update_cache f d s = Returned (Err e) (set_cache c' s2)).
  { unfold update_cache, fetch_eth1_data_in_range. cbv zeta.
    rewrite EH, EF. fold s2. rewrite EC. reflexivity. }
  exists e, (set_cache c' s2). split; [exact E|].
  split; [exact (update_cache_error_last_block _ _ _ _ _ E)|].
  split.
  - intros k.
    destruct (update_cache_frame _ _ _ _ _ E k) as [Hk|(H' & j & cs' & v & EH' & Hj & Ej & Hv)].
    + left. exact Hk.
    + rewrite EH in EH'. inversion EH'; subst H'.
      right. exists j, cs', v. repeat split; auto. exact (fetch_key _ _ _ _ _ _ Ej).
  - intros Hnet Hpre.
    destruct (Hnet i Hi) as (cs3 & x & Ex). rewrite Er in Ex.
    injection Ex as _ Hrx. subst r.
    destruct x as [[k v]|e0]; [exfalso; exact (Hr k v eq_refl)|].
    destruct (update_cache_prefix f d s H i cs1 e0 EH HH Hi Hnet Hpre Er) as (s'' & E' & Hj).
    rewrite E in E'. inversion E'; subst. exact Hj.
Qed.

Lemma update_cache_failure_keeps_watermark_witness :
  exists e s', update_cache gap_fetcher 2 new_block_cache = Returned (Err e) s' /\
    last_block s' = last_block new_block_cache /\
    (forall k, cache s' !! k = cache new_block_cache !! k \/
      exists j cs v, (j < 2)%N /\ k = (10 - j)%N /\
        fetch_eth1_data gap_fetcher j 10 = Some (cs, Ok (Ok (k, v))) /\ cache s' !! k = Some v) /\
    ((forall j, (j < 2)%N -> exists cs x, fetch_eth1_data gap_fetcher j 10 = Some (cs, Ok x)) ->
     (forall j, (j < 1)%N -> height_fetch_fails gap_fetcher j 10 = false) ->
     forall j, (j < 1)%N -> exists cs v,
       fetch_eth1_data gap_fetcher j 10 = Some (cs, Ok (Ok ((10 - j)%N, v))) /\
       cache s' !! (10 - j)%N = Some v).
Proof.
  apply (update_cache_failure_keeps_watermark gap_fetcher 2 new_block_cache 10 1).
  - reflexivity.
  - reflexivity.
  - reflexivity.
  - vm_compute. reflexivity.
Defined.

(** With a network error the stream can fail before it yields earlier
    heights: at head 10, [update_cache(3)] against [late_gap_fetcher]
    returns the network error of height 8 and commits nothing, not even
    height 10, although height 9 fails first in range order. *)
Example update_cache_network_error_first :
  exists s', update_cache late_gap_fetcher 3 new_block_cache =
    Returned (Err (Web3Error (Transport "timeout"))) s' /\
    cache s' = cache new_block_cache.
Proof. vm_compute. eexists. split; reflexivity. Qed.

(** ** C2: what a successful [update_cache] caches *)

(** C2 (counterexample): with head 10, [update_cache(1)] succeeds but the
    height [10 - 1 = 9] of the range [[H - d, H]] is not cached. *)
Lemma update_cache_skips_far_end :
  exists s', update_cache (good_fetcher 10) 1 new_block_cache = Returned (Ok tt) s' /\
    get_current_block_number (good_fetcher 10) = Ok 10%N /\
    cache s' !! (10 - 1)%N = None.
Proof. vm_compute. eexists. split; [reflexivity|]. vm_compute. auto. Qed.

(** C2 (amended): if [update_cache(d)] succeeds with head [H], every
    height [H - i] for [0 <= i < d] (subtraction saturating at 0), that is
    the range [(H - d, H]], holds the [Eth1Data] fetched for it in this
    call, and [last_block] is [H]. *)
Theorem update_cache_fills_distances (f : Fetcher) (d : N) (s s' : BlockCache) :
  update_cache f d s = Returned (Ok tt) s' ->
  exists H, get_current_block_number f = Ok H /\ last_block s' = H /\
    forall i, (i < d)%N -> exists cs v,
      fetch_eth1_data f i H = Some (cs, Ok (Ok ((H - i)%N, v))) /\
      cache s' !! (H - i)%N = Some v.
Proof.
  intros E. destruct (update_cache_success _ _ _ _ _ E) as (H & EH & HL & _ & Hc).
  exists H. auto.
Qed.

Lemma update_cache_fills_distances_witness :
  exists s', update_cache (good_fetcher 10) 3 new_block_cache = Returned (Ok tt) s' /\
  exists H, get_current_block_number (good_fetcher 10) = Ok H /\ last_block s' = H /\
    forall i, (i < 3)%N -> exists cs v,
      fetch_eth1_data (good_fetcher 10) i H = Some (cs, Ok (Ok ((H - i)%N, v))) /\
      cache s' !! (H - i)%N = Some v.
Proof.
  destruct (update_cache (good_fetcher 10) 3 new_block_cache) as [r s'| |] eqn:E; [|vm_compute in E; discriminate..].
  - assert (Hr : r = Ok tt) by (vm_compute in E; inversion E; reflexivity). subst r.
    exists s'. split; [reflexivity|].
    exact (update_cache_fills_distances (good_fetcher 10) 3 new_block_cache s' E).
Defined.

(** ** C3: entries are not write-once *)

(** C3 (counterexample): height 10 holds [old_entry]; [update_cache(1)]
    with head 10 replaces it by the value the node now reports. *)
Lemma update_cache_overwrites_entry :
  exists s', update_cache (good_fetcher 10) 1 cache_with_old_entry = Returned (Ok tt) s' /\
    cache cache_with_old_entry !! 10%N = Some old_entry /\
    cache s' !! 10%N = Some (mkEth1Data 110%N 10%N 210%N) /\
    mkEth1Data 110%N 10%N 210%N <> old_entry.
Proof.
  vm_compute. eexists. split; [reflexivity|]. vm_compute.
  split; [reflexivity|]. split; [reflexivity|]. discriminate.
Qed.

(** C3 (amended): [get_eth1_data] never changes a cached entry (it only
    inserts at a height absent from the cache); [update_cache(d)] changes
    the entry at a height only by storing the value fetched for it in this
    call, at a height [H - i] with [i < d]; all other heights keep their
    entries. *)
Theorem cache_entries_change_only_by_refetch :
  (forall (f : Fetcher) (d : N) (s : BlockCache) r s' k v,
     get_eth1_data f d s = Returned r s' -> cache s !! k = Some v ->
     cache s' !! k = Some v) /\
  (forall (f : Fetcher) (d : N) (s : BlockCache) r s' k,
     update_cache f d s = Returned r s' ->
     cache s' !! k = cache s !! k \/
     exists H i cs v, get_current_block_number f = Ok H /\ (i < d)%N /\
       k = (H - i)%N /\ fetch_eth1_data f i H = Some (cs, Ok (Ok (k, v))) /\
       cache s' !! k = Some v).
Proof.
  split.
  - intros f d s r s' k v E Hk. exact (proj2 (get_eth1_data_keeps _ _ _ _ _ E) k v Hk).
  - intros f d s r s' k E.
    destruct (update_cache_frame _ _ _ _ _ E k) as [Hk|(H & i & cs & v & EH & Hi & Ei & Hv)].
    + left. exact Hk.
    + right. exists H, i, cs, v. repeat split; auto. exact (fetch_key _ _ _ _ _ _ Ei).
Qed.

(** ** C10: [update_cache(0)] *)

(** C10 (counterexample): a head of [2^64] does not fit in the [u64]
    watermark; [update_cache(0)] panics in [as_u64]. *)
Lemma update_cache_zero_wide_head_panics :
  get_current_block_number (good_fetcher (2 ^ 64)) = Ok (2 ^ 64)%N /\
  update_cache (good_fetcher (2 ^ 64)) 0 new_block_cache = Panicked.
Proof. split; vm_compute; reflexivity. Qed.

(** C10 (amended): if the head query returns [H < 2^64], [update_cache(0)]
    succeeds, leaves the cache map as it was, sets [last_block] to [H] and
    makes no call but the head query. *)
Theorem update_cache_zero_moves_watermark (f : Fetcher) (s : BlockCache) (H : N) :
  get_current_block_number f = Ok H -> (H < 2 ^ 64)%N ->
  update_cache f 0 s = Returned (Ok tt) (mkBlockCache (cache s) H (calls s ++ [CallBlockNumber])).
Proof.
  intros EH HH. unfold update_cache, fetch_eth1_data_in_range. cbv zeta.
  rewrite EH. simpl. rewrite as_u64_small by exact HH. rewrite app_nil_r. reflexivity.
Qed.

Lemma update_cache_zero_moves_watermark_witness :
  update_cache (good_fetcher 10) 0 new_block_cache =
    Returned (Ok tt) (mkBlockCache (cache new_block_cache) 10%N (calls new_block_cache ++ [CallBlockNumber])).
Proof.
  apply (update_cache_zero_moves_watermark (good_fetcher 10) new_block_cache 10);
    reflexivity.
Defined.

(** ** C6: lookups after [update_cache] *)

(** C6 (counterexample): after [update_cache(2)] at head 10,
    [get_eth1_data(0)] still queries the head (one network call), and
    [get_eth1_data(2)] (distance [k = d]) misses the cache, fetches height
    8 and then never returns. *)
Lemma get_eth1_data_after_update_calls_node :
  exists s1 s2 v,
    update_cache (good_fetcher 10) 2 new_block_cache = Returned (Ok tt) s1 /\
    get_eth1_data (good_fetcher 10) 0 s1 = Returned (Ok v) s2 /\
    calls s2 = calls s1 ++ [CallBlockNumber] /\
    cache s1 !! (10 - 2)%N = None /\
    get_eth1_data (good_fetcher 10) 2 s1 = Deadlocked.
Proof.
  vm_compute. do 3 eexists.
  split; [reflexivity|]. split; [reflexivity|]. split; [reflexivity|].
  split; reflexivity.
Qed.

(** C6 (amended): after a successful [update_cache(d)] with head [H], for
    any [k < d] and the same node, [get_eth1_data(k)] returns the entry
    cached for height [H - k] and makes exactly one network call, the head
    query: no per-height query, and nothing else in the state changes. *)
Theorem cached_distance_needs_only_head_query (f : Fetcher) (d : N) (s s1 : BlockCache) (k : N) :
  update_cache f d s = Returned (Ok tt) s1 -> (k < d)%N ->
  exists H v, get_current_block_number f = Ok H /\ cache s1 !! (H - k)%N = Some v /\
    get_eth1_data f k s1 = Returned (Ok v) (log_calls s1 [CallBlockNumber]).
Proof.
  intros E Hk. destruct (update_cache_success _ _ _ _ _ E) as (H & EH & _ & _ & Hc).
  destruct (Hc k Hk) as (cs & v & _ & Hv).
  exists H, v. split; [exact EH|]. split; [exact Hv|].
  unfold get_eth1_data. cbv zeta. rewrite EH. simpl. rewrite Hv. reflexivity.
Qed.

Lemma cached_distance_needs_only_head_query_witness :
  exists s1, update_cache (good_fetcher 10) 2 new_block_cache = Returned (Ok tt) s1 /\
  exists H v, get_current_block_number (good_fetcher 10) = Ok H /\ cache s1 !! (H - 1)%N = Some v /\
    get_eth1_data (good_fetcher 10) 1 s1 = Returned (Ok v) (log_calls s1 [CallBlockNumber]).
Proof.
  destruct (update_cache (good_fetcher 10) 2 new_block_cache) as [r s1| |] eqn:E; [|vm_compute in E; discriminate..].
  - assert (Hr : r = Ok tt) by (vm_compute in E; inversion E; reflexivity). subst r.
    exists s1. split; [reflexivity|].
    apply (cached_distance_needs_only_head_query (good_fetcher 10) 2 new_block_cache s1 1 E).
    reflexivity.
Defined.

(** ** C7: the errors of [get_eth1_data] *)

(** C7 (counterexample): an absent block and a malformed deposit count give
    the same error value from [get_eth1_data(0)], while [update_cache(1)]
    reports the two distinct inner errors. *)
Lemma absent_block_and_malformed_count_same_error :
  exists s1 s2 s3 s4,
    get_eth1_data absent_block_fetcher 0 new_block_cache = Returned (Err fetch_failed_error) s1 /\
    get_eth1_data malformed_count_fetcher 0 new_block_cache = Returned (Err fetch_failed_error) s2 /\
    update_cache absent_block_fetcher 1 new_block_cache = Returned (Err missing_block_error) s3 /\
    update_cache malformed_count_fetcher 1 new_block_cache =
      Returned (Err (Web3Error (Decoder "invalid deposit count"))) s4 /\
    missing_block_error <> fetch_failed_error.
Proof.
  vm_compute. do 4 eexists.
  split; [reflexivity|]. split; [reflexivity|]. split; [reflexivity|].
  split; [reflexivity|]. discriminate.
Qed.

(** C7 (code bug): when the fetch of an uncached height yields an inner
    error [e] (a malformed deposit count or an absent block),
    [get_eth1_data] discards [e] and returns the fixed error of the branch
    marked "Should never reach here"; [update_cache] over a range ending at
    that distance, with no network error and no earlier failing distance,
    returns [e] itself ([data?]). *)
Theorem get_eth1_data_discards_item_error (f : Fetcher) (d : N) (s : BlockCache) (H : N)
    (cs : list Call) (e : Error) :
  get_current_block_number f = Ok H -> cache s !! (H - d)%N = None ->
  fetch_eth1_data f d H = Some (cs, Ok (Err e)) ->
  get_eth1_data f d s =
    Returned (Err fetch_failed_error) (log_calls (log_calls s [CallBlockNumber]) cs) /\
  ((forall j, (j <= d)%N -> exists cs' x, fetch_eth1_data f j H = Some (cs', Ok x)) ->
   (forall j, (j < d)%N -> height_fetch_fails f j H = false) ->
   exists s', update_cache f (d + 1) s = Returned (Err e) s').
Proof.
  intros EH Hc Ef. split.
  - unfold get_eth1_data. cbv zeta. rewrite EH. cbn [cache log_calls].
    rewrite Hc, Ef. reflexivity.
  - intros Hnet Hpre.
    assert (HH : (H < 2 ^ 64)%N).
    { destruct (Hnet 0%N ltac:(lia)) as (cs' & x & E0).
      unfold fetch_eth1_data in E0. rewrite N.sub_0_r in E0.
      destruct (as_u64 H) as [h|] eqn:Eh; [|discriminate].
      exact (proj2 (as_u64_some _ _ Eh)). }
    assert (Hnet' : forall j, (j < d + 1)%N ->
              exists cs' x, fetch_eth1_data f j H = Some (cs', Ok x)).
    { intros j Hj. apply Hnet. lia. }
    destruct (update_cache_prefix f (d + 1) s H d cs e EH HH ltac:(lia) Hnet' Hpre Ef)
      as (s' & E' & _).
    eauto.
Qed.

Lemma get_eth1_data_discards_item_error_witness :
  get_eth1_data absent_block_fetcher 0 new_block_cache =
    Returned (Err fetch_failed_error)
      (log_calls (log_calls new_block_cache [CallBlockNumber])
         [CallDepositRoot 10; CallDepositCount 10; CallBlockHash 10]) /\
  ((forall j, (j <= 0)%N -> exists cs' x, fetch_eth1_data absent_block_fetcher j 10 = Some (cs', Ok x)) ->
   (forall j, (j < 0)%N -> height_fetch_fails absent_block_fetcher j 10 = false) ->
   exists s', update_cache absent_block_fetcher (0 + 1) new_block_cache = Returned (Err missing_block_error) s').
Proof.
  apply (get_eth1_data_discards_item_error absent_block_fetcher 0 new_block_cache 10
           [CallDepositRoot 10; CallDepositCount 10; CallBlockHash 10] missing_block_error);
    vm_compute; reflexivity.
Defined.

(** ** C8: [get_eth1_data_in_range] *)








(** ** C9: no partial entry on an error of [get_eth1_data] *)

(** C9: if the head query fails, or the target height is not cached and
    its fetch fails (network error of one of its queries, malformed deposit
    count or absent block), [get_eth1_data] returns an error and leaves the
    cache map and [last_block] exactly as they were. *)
Theorem get_eth1_data_failed_fetch_commits_nothing (f : Fetcher) (d : N) (s : BlockCache) :
  (exists e0, get_current_block_number f = Err e0) \/
  (exists H, get_current_block_number f = Ok H /\ cache s !! (H - d)%N = None /\
             height_fetch_fails f d H = true) ->
  exists e s', get_eth1_data f d s = Returned (Err e) s' /\
    cache s' = cache s /\ last_block s' = last_block s.
Proof.
  intros Hcase.
  assert (E : exists e s', get_eth1_data f d s = Returned (Err e) s').
  { destruct Hcase as [(e0 & EH)|(H & EH & Hc & Hf)].
    - exists e0. eexists. unfold get_eth1_data. rewrite EH. reflexivity.
    - unfold get_eth1_data. cbv zeta. rewrite EH. simpl. rewrite Hc.
      unfold height_fetch_fails in Hf.
      destruct (fetch_eth1_data f d H) as [[cs [[[k v]|e']|e']]|]; try discriminate; eauto. }
  destruct E as (e & s' & E). exists e, s'. split; [exact E|].
  exact (get_eth1_data_error_state _ _ _ _ _ E).
Qed.

Lemma get_eth1_data_failed_fetch_commits_nothing_witness :
  exists e s', get_eth1_data absent_block_fetcher 0 new_block_cache = Returned (Err e) s' /\
    cache s' = cache new_block_cache /\ last_block s' = last_block new_block_cache.
Proof.
  apply (get_eth1_data_failed_fetch_commits_nothing absent_block_fetcher 0 new_block_cache).
  right. exists 10%N. split; [reflexivity|]. split; vm_compute; reflexivity.
Defined.

(** ** Further properties of the block cache *)

Lemma fetch_no_panic_at f d H :
  (H - d < 2 ^ 64)%N -> exists cs r, fetch_eth1_data f d H = Some (cs, r).
Proof. intros Hb. unfold fetch_eth1_data. rewrite as_u64_small by exact Hb. eauto. Qed.

Lemma fetch_panics_at f d H :
  (2 ^ 64 <= H - d)%N -> fetch_eth1_data f d H = None.
Proof.
  intros Hb. unfold fetch_eth1_data, as_u64.
  rewrite (proj2 (N.ltb_ge _ _) Hb). reflexivity.
Qed.

Lemma fetch_all_calls f H ds :
  (H < 2 ^ 64)%N ->
  exists rs, fetch_all f H ds =
    Some (flat_map (fun i => [CallDepositRoot (H - i); CallDepositCount (H - i);
                              CallBlockHash (H - i)]) ds, rs).
Proof.
  intros HH. induction ds as [|d ds IH]; simpl; [eauto|].
  unfold fetch_eth1_data at 1. rewrite as_u64_small by lia.
  destruct IH as (rs & ->). eauto.
Qed.

Lemma commit_stream_untouched T c items c' r k :
  commit_stream T c items = (c', r) -> (forall v, ~ In (Ok (Ok (k, v))) items) ->
  c' !! k = c !! k.
Proof.
  intros E Hk. destruct (commit_stream_frame _ _ _ _ _ E k) as [?|(v & Hin & _)]; auto.
  exfalso. exact (Hk v Hin).
Qed.

(** A successful stream commits the same map from any start that agrees
    on the heights it does not touch. *)
Lemma commit_stream_agree T items c1 c2 c1' u :
  commit_stream T c1 items = (c1', Ok u) ->
  (forall k, (forall v, ~ In (Ok (Ok (k, v))) items) -> c1 !! k = c2 !! k) ->
  commit_stream T c2 items = (c1', Ok u).
Proof. apply commit_stream_agree_gen. Qed.

Lemma collect_eth1_data_keeps f hs s vs s' :
  collect_eth1_data f hs s = Some (vs, s') ->
  last_block s' = last_block s /\
  forall k v, cache s !! k = Some v -> cache s' !! k = Some v.
Proof.
  revert s vs. induction hs as [|h hs IH]; intros s vs E; simpl in E.
  - inversion E; subst. auto.
  - destruct (get_eth1_data f h s) as [r s1| |] eqn:E1; [|discriminate..].
    destruct (collect_eth1_data f hs s1) as [[vs1 s2]|] eqn:E2; [|discriminate].
    inversion E; subst.
    destruct (get_eth1_data_keeps _ _ _ _ _ E1) as [HL1 Hc1].
    destruct (IH _ _ E2) as [HL2 Hc2].
    split; [congruence|]. intros k v Hk. apply Hc2, Hc1, Hk.
Qed.

(** [update_cache] panics exactly when the head query returns a block
    number of [2^64] or more: [as_u64] fails on the height at distance 0
    when [distance > 0], and on the new watermark when [distance = 0]. *)
Theorem update_cache_panics_iff (f : Fetcher) (d : N) (s : BlockCache) :
  update_cache f d s = Panicked <->
  exists H, get_current_block_number f = Ok H /\ (2 ^ 64 <= H)%N.
Proof.
  unfold update_cache. destruct (get_current_block_number f) as [H|e] eqn:EH.
  2:{ split; [discriminate|intros (H & E & _); discriminate]. }
  destruct (N.lt_ge_cases H (2 ^ 64)) as [HH|HH].
  - destruct (fetch_all_no_panic f H (range 0 d) HH) as (cs & rs & EF).
    unfold fetch_eth1_data_in_range. rewrite EF. rewrite as_u64_small by exact HH.
    split.
    + destruct (commit_stream _ _ _) as [c' [u|e]]; discriminate.
    + intros (H' & E & HH'). inversion E; subst. lia.
  - split; [intros _; eauto|intros _].
    unfold fetch_eth1_data_in_range, range. rewrite N.sub_0_r.
    destruct (N.to_nat d) as [|m].
    + unfold commit_stream. cbn [seq map fetch_all first_stream_error for_each_commit].
      unfold as_u64.
      rewrite (proj2 (N.ltb_ge _ _) HH). reflexivity.
    + cbn [seq map fetch_all]. rewrite fetch_panics_at by (rewrite N.sub_0_r; exact HH).
      reflexivity.
Qed.

(** [get_eth1_data(distance)] panics exactly when the head query returns
    [H], the height [H - distance] is not cached, and that height does not
    fit in a [u64]. *)
Theorem get_eth1_data_panics_iff (f : Fetcher) (d : N) (s : BlockCache) :
  get_eth1_data f d s = Panicked <->
  exists H, get_current_block_number f = Ok H /\ cache s !! (H - d)%N = None /\
    (2 ^ 64 <= H - d)%N.
Proof.
  unfold get_eth1_data. cbv zeta. destruct (get_current_block_number f) as [H|e] eqn:EH.
  2:{ split; [discriminate|intros (H & E & _); discriminate]. }
  cbn [cache log_calls]. destruct (cache s !! (H - d)%N) as [v|] eqn:Ec.
  { split; [discriminate|intros (H' & E & Ec' & _); inversion E; subst; congruence]. }
  destruct (N.lt_ge_cases (H - d) (2 ^ 64)) as [Hb|Hb].
  - destruct (fetch_no_panic_at f d H Hb) as (cs & r & ->).
    split.
    + destruct r as [[[k v]|e]|e]; discriminate.
    + intros (H' & E & _ & Hb'). inversion E; subst. lia.
  - rewrite fetch_panics_at by exact Hb. split; [intros _; eauto|reflexivity].
Qed.

(** Distances at or beyond the head saturate to height 0:
    [get_eth1_data(distance)] with [distance >= H] behaves exactly as
    [get_eth1_data(H)] (same result, same state, same calls). *)
Theorem get_eth1_data_distance_saturates (f : Fetcher) (d : N) (s : BlockCache) (H : N) :
  get_current_block_number f = Ok H -> (H <= d)%N ->
  get_eth1_data f d s = get_eth1_data f H s.
Proof.
  intros EH Hd. assert (Hs : (H - d = H - H)%N) by lia.
  unfold get_eth1_data. cbv zeta. rewrite EH. rewrite Hs.
  rewrite (fetch_same_height f d H H Hs). reflexivity.
Qed.


(** [get_eth1_data(distance)] returns a value only from the cache: the
    one stored at [H - distance] for the head [H], after the head query
    alone and with nothing else in the state changed. *)
Theorem get_eth1_data_returns_only_cached (f : Fetcher) (d : N) (s s' : BlockCache)
    (v : Eth1Data) :
  get_eth1_data f d s = Returned (Ok v) s' ->
  exists H, get_current_block_number f = Ok H /\ cache s !! (H - d)%N = Some v /\
    s' = log_calls s [CallBlockNumber].
Proof. intros E. exact (proj2 (proj2 (get_eth1_data_returned _ _ _ _ _ E)) v eq_refl). Qed.

(** [get_eth1_data_in_range] never moves [last_block] and never changes or
    drops an entry already in the cache. *)
Theorem get_eth1_data_in_range_keeps (f : Fetcher) (start end_ : N) (s : BlockCache)
    (vs : list Eth1Data) (s' : BlockCache) :
  get_eth1_data_in_range f start end_ s = Some (vs, s') ->
  last_block s' = last_block s /\
  forall k v, cache s !! k = Some v -> cache s' !! k = Some v.
Proof. apply collect_eth1_data_keeps. Qed.

(** With a head [H < 2^64], [update_cache(distance)] returns (it does not
    panic), and whatever its outcome it has made the head query and, for
    every [i] in [0..distance], the three queries for height [H - i]: all
    per-height futures are built before the stream runs, so they are
    issued even when an earlier height fails. *)
Theorem update_cache_issues_all_queries (f : Fetcher) (d : N) (s : BlockCache) (H : N) :
  get_current_block_number f = Ok H -> (H < 2 ^ 64)%N ->
  exists r s', update_cache f d s = Returned r s' /\
    calls s' = calls s ++ CallBlockNumber ::
      flat_map (fun i => [CallDepositRoot (H - i); CallDepositCount (H - i);
                          CallBlockHash (H - i)]) (range 0 d).
Proof.
  intros EH HH. destruct (fetch_all_calls f H (range 0 d) HH) as (rs & EF).
  unfold update_cache, fetch_eth1_data_in_range. cbv zeta. rewrite EH, EF.
  destruct (commit_stream _ _ rs) as [c' [u|e]].
  - rewrite as_u64_small by exact HH. do 2 eexists. split; [reflexivity|].
    cbn [calls log_calls]. rewrite <- app_assoc. reflexivity.
  - do 2 eexists. split; [reflexivity|].
    cbn [calls log_calls set_cache]. rewrite <- app_assoc. reflexivity.
Qed.


(** Re-running [update_cache(distance)] after a success, against a node
    whose answers have not changed, succeeds again and leaves the cache map
    and [last_block] as they were. *)
Theorem update_cache_rerun_stable (f : Fetcher) (d : N) (s s1 : BlockCache) :
  update_cache f d s = Returned (Ok tt) s1 ->
  exists s2, update_cache f d s1 = Returned (Ok tt) s2 /\
    cache s2 = cache s1 /\ last_block s2 = last_block s1.
Proof.
  intros E. unfold update_cache in E. cbv zeta in E.
  destruct (get_current_block_number f) as [H|e] eqn:EH; [|discriminate].
  destruct (fetch_eth1_data_in_range f 0 d H) as [[cs items]|] eqn:EF; [|discriminate].
  destruct (commit_stream _ _ items) as [c' [u|e]] eqn:EC; [|discriminate].
  destruct (as_u64 H) as [h|] eqn:Eh; [|discriminate].
  inversion E; subst s1. cbn [cache log_calls] in EC.
  assert (EC2 : commit_stream (completion_round f) c' items = (c', Ok u)).
  { apply (commit_stream_agree _ items (cache s) c' c' u EC).
    intros k Hk. symmetry. exact (commit_stream_untouched _ _ _ _ _ k EC Hk). }
  eexists. unfold update_cache. cbv zeta. rewrite EH, EF. cbn [cache log_calls].
  rewrite EC2, Eh. split; [reflexivity|]. split; reflexivity.
Qed.

(** ** Witnesses of the further properties *)

Lemma get_eth1_data_distance_saturates_witness :
  get_eth1_data (good_fetcher 10) 15 new_block_cache =
  get_eth1_data (good_fetcher 10) 10 new_block_cache.
Proof.
  apply (get_eth1_data_distance_saturates (good_fetcher 10) 15 new_block_cache 10);
    [reflexivity|lia].
Defined.


Lemma get_eth1_data_returns_only_cached_witness :
  exists s', get_eth1_data (good_fetcher 10) 0 cache_with_old_entry = Returned (Ok old_entry) s' /\
  exists H, get_current_block_number (good_fetcher 10) = Ok H /\
    cache cache_with_old_entry !! (H - 0)%N = Some old_entry /\
    s' = log_calls cache_with_old_entry [CallBlockNumber].
Proof.
  destruct (get_eth1_data (good_fetcher 10) 0 cache_with_old_entry) as [r s'| |] eqn:E;
    [|vm_compute in E; discriminate..].
  assert (Hr : r = Ok old_entry) by (vm_compute in E; inversion E; reflexivity). subst r.
  exists s'. split; [reflexivity|].
  exact (get_eth1_data_returns_only_cached (good_fetcher 10) 0 cache_with_old_entry s' old_entry E).
Defined.

Lemma get_eth1_data_in_range_keeps_witness :
  exists vs s', get_eth1_data_in_range gap_fetcher 0 2 cache_with_old_entry = Some (vs, s') /\
    last_block s' = last_block cache_with_old_entry /\
    forall k v, cache cache_with_old_entry !! k = Some v -> cache s' !! k = Some v.
Proof.
  destruct (get_eth1_data_in_range gap_fetcher 0 2 cache_with_old_entry) as [[vs s']|] eqn:E.
  - exists vs, s'. split; [reflexivity|].
    exact (get_eth1_data_in_range_keeps gap_fetcher 0 2 cache_with_old_entry vs s' E).
  - vm_compute in E. discriminate.
Defined.

Lemma update_cache_issues_all_queries_witness :
  exists r s', update_cache gap_fetcher 2 new_block_cache = Returned r s' /\
    calls s' = calls new_block_cache ++ CallBlockNumber ::
      flat_map (fun i => [CallDepositRoot (10 - i); CallDepositCount (10 - i);
                          CallBlockHash (10 - i)]) (range 0 2).
Proof.
  apply (update_cache_issues_all_queries gap_fetcher 2 new_block_cache 10);
    vm_compute; reflexivity.
Defined.


Lemma update_cache_rerun_stable_witness :
  exists s1, update_cache (good_fetcher 10) 3 new_block_cache = Returned (Ok tt) s1 /\
  exists s2, update_cache (good_fetcher 10) 3 s1 = Returned (Ok tt) s2 /\
    cache s2 = cache s1 /\ last_block s2 = last_block s1.
Proof.
  destruct (update_cache (good_fetcher 10) 3 new_block_cache) as [r s1| |] eqn:E; [|vm_compute in E; discriminate..].
  - assert (Hr : r = Ok tt) by (vm_compute in E; inversion E; reflexivity). subst r.
    exists s1. split; [reflexivity|].
    exact (update_cache_rerun_stable (good_fetcher 10) 3 new_block_cache s1 E).
Defined.

End Eth1Facts.

Module DepositTreeFacts.

Import DepositTree.

Section Merkle.

(** [hash] and [deposit_leaf] as in [DepositTree]. *)
Variable hash : Bytes -> Bytes.
Variable deposit_leaf : DepositData -> Bytes.

Local Abbreviation hash32_concat := (DepositTree.hash32_concat hash).
Local Abbreviation zero_hash := (DepositTree.zero_hash hash).
Local Abbreviation insert_log := (DepositTree.insert_log deposit_leaf).
Local Abbreviation insert_logs := (DepositTree.insert_logs deposit_leaf).
Local Abbreviation pair_up := (DepositTree.pair_up hash).
Local Abbreviation level := (DepositTree.level hash).
Local Abbreviation tree_root := (DepositTree.tree_root hash).
Local Abbreviation generate_proof := (DepositTree.generate_proof hash).
Local Abbreviation root_at := (DepositTree.root_at hash).
Local Abbreviation deposit_root := (DepositTree.deposit_root hash).
Local Abbreviation get_deposits := (DepositTree.get_deposits hash).
Local Abbreviation merkle_root_from_branch := (DepositTree.merkle_root_from_branch hash).
Local Abbreviation verify_merkle_proof := (DepositTree.verify_merkle_proof hash).
Local Abbreviation subtree_root := (DepositTree.subtree_root hash).
Local Abbreviation contract_deposit_root := (DepositTree.contract_deposit_root hash deposit_leaf).

(** ** Lemmas on the levels of the tree *)

Lemma pow2_N (d : nat) : (2 ^ N.of_nat d)%N = N.of_nat (2 ^ d).
Proof. rewrite Nat2N.inj_pow. reflexivity. Qed.

Lemma nth_pair_up (z : Bytes) (l : list Bytes) (j : nat) :
  nth j (pair_up z l) (hash32_concat z z) =
  hash32_concat (nth (2 * j) l z) (nth (2 * j + 1) l z).
Proof.
  revert l. induction j as [|j IH]; intros l.
  - destruct l as [|a [|b r]]; reflexivity.
  - destruct l as [|a [|b r]].
    + rewrite !nth_overflow by (simpl; lia). reflexivity.
    + simpl pair_up. rewrite !nth_overflow by (simpl; lia). reflexivity.
    + replace (2 * S j) with (S (S (2 * j))) by lia.
      replace (S (S (2 * j)) + 1) with (S (S (2 * j + 1))) by lia.
      simpl. apply IH.
Qed.

Lemma nth_level_succ (k : nat) (l : list Bytes) (j : nat) :
  nth j (level (S k) l) (zero_hash (S k)) =
  hash32_concat (nth (2 * j) (level k l) (zero_hash k))
                (nth (2 * j + 1) (level k l) (zero_hash k)).
Proof.
  change (zero_hash (S k)) with (hash32_concat (zero_hash k) (zero_hash k)).
  change (level (S k) l) with (pair_up (zero_hash k) (level k l)).
  apply nth_pair_up.
Qed.

Lemma subtree_root_nil (d : nat) : subtree_root d [] = zero_hash d.
Proof. destruct d; reflexivity. Qed.

Lemma subtree_root_S (d : nat) (l : list Bytes) :
  subtree_root (S d) l =
  hash32_concat (subtree_root d (firstn (2 ^ d) l)) (subtree_root d (skipn (2 ^ d) l)).
Proof.
  destruct l as [|a l'].
  - rewrite firstn_nil, skipn_nil, !subtree_root_nil. reflexivity.
  - change (subtree_root (S d) (a :: l')) with
      (if (N.of_nat (length (a :: l')) <=? 2 ^ N.of_nat d)%N
       then hash32_concat (subtree_root d (a :: l')) (zero_hash d)
       else hash32_concat (subtree_root d (firstn (2 ^ d) (a :: l')))
                          (subtree_root d (skipn (2 ^ d) (a :: l')))).
    destruct (N.leb_spec (N.of_nat (length (a :: l'))) (2 ^ N.of_nat d)) as [Hle|Hgt];
      [|reflexivity].
    rewrite pow2_N in Hle.
    assert (Hl : length (a :: l') <= 2 ^ d) by lia.
    rewrite firstn_all2 by exact Hl. rewrite skipn_all2 by exact Hl.
    rewrite subtree_root_nil. reflexivity.
Qed.

Lemma nth_skipn_head (l : list Bytes) (j : nat) (z : Bytes) :
  nth j l z = match skipn j l with [] => z | a :: _ => a end.
Proof. revert l. induction j as [|j IH]; intros [|a l]; simpl; auto. Qed.

(** Node [j] of level [d] is the root of the height-[d] subtree over the
    leaves [[j * 2^d, (j + 1) * 2^d)]. *)
Lemma level_subtree_root (d : nat) (l : list Bytes) (j : nat) :
  nth j (level d l) (zero_hash d) = subtree_root d (firstn (2 ^ d) (skipn (j * 2 ^ d) l)).
Proof.
  revert j. induction d as [|d IH]; intros j.
  - simpl level. rewrite Nat.pow_0_r, Nat.mul_1_r, nth_skipn_head.
    destruct (skipn j l); reflexivity.
  - rewrite nth_level_succ, !IH, subtree_root_S, Nat.pow_succ_r'.
    set (p := 2 ^ d). f_equal; f_equal.
    + rewrite firstn_firstn, Nat.min_l by lia. f_equal. f_equal. unfold p. ring.
    + rewrite skipn_firstn_comm, skipn_skipn.
      replace (2 * p - p) with p by lia. f_equal. f_equal. ring.
Qed.

Lemma tree_root_subtree_root (d : nat) (l : list Bytes) :
  length l <= 2 ^ d -> tree_root d l = subtree_root d l.
Proof.
  intros Hl. unfold tree_root. rewrite level_subtree_root, Nat.mul_0_l.
  cbn [skipn]. rewrite firstn_all2 by exact Hl. reflexivity.
Qed.

(** ** Lemmas on proofs *)

Lemma land1_odd (q : nat) : (Nat.land q 1 =? 1) = Nat.odd q.
Proof.
  pose proof (Nat.land_ones q 1) as E.
  change (Nat.ones 1) with 1 in E. change (2 ^ 1) with 2 in E. rewrite E.
  pose proof (Nat.div2_odd q) as Hq.
  destruct (Nat.odd q); simpl Nat.b2n in Hq.
  - apply Nat.eqb_eq. rewrite Hq. rewrite Nat.add_comm, Nat.mul_comm, Nat.Div0.mod_add. reflexivity.
  - apply Nat.eqb_neq. rewrite Hq. rewrite Nat.add_0_r, Nat.mul_comm, Nat.Div0.mod_mul. lia.
Qed.

Lemma merkle_root_from_branch_app (node : Bytes) (bs : list Bytes) (b : Bytes) (index k : nat) :
  merkle_root_from_branch node (bs ++ [b]) index k =
  let r := merkle_root_from_branch node bs index k in
  if Nat.land (Nat.shiftr index (k + length bs)) 1 =? 1 then hash32_concat b r
  else hash32_concat r b.
Proof.
  revert node k. induction bs as [|b0 bs IH]; intros node k.
  - simpl. rewrite Nat.add_0_r. reflexivity.
  - simpl. rewrite IH. replace (S k + length bs) with (k + S (length bs)) by lia.
    reflexivity.
Qed.

(** Climbing from node [shiftr i k0] of level [k0] with the siblings of
    levels [k0 .. k0 + m - 1] gives node [shiftr i (k0 + m)] of level
    [k0 + m]. *)
Lemma climb_levels (l : list Bytes) (i m k0 : nat) :
  merkle_root_from_branch (nth (Nat.shiftr i k0) (level k0 l) (zero_hash k0))
    (map (fun k => nth (sibling_index (Nat.shiftr i k)) (level k l) (zero_hash k)) (seq k0 m))
    i k0 =
  nth (Nat.shiftr i (k0 + m)) (level (k0 + m) l) (zero_hash (k0 + m)).
Proof.
  revert k0. induction m as [|m IH]; intros k0.
  - simpl. rewrite Nat.add_0_r. reflexivity.
  - cbn [seq map merkle_root_from_branch].
    replace (k0 + S m) with (S k0 + m) by lia. rewrite <- IH. f_equal.
    change (Nat.shiftr i (S k0)) with (Nat.div2 (Nat.shiftr i k0)).
    rewrite nth_level_succ. set (q := Nat.shiftr i k0).
    rewrite land1_odd. unfold sibling_index.
    pose proof (Nat.div2_odd q) as Hq.
    destruct (Nat.odd q); simpl Nat.b2n in Hq.
    + f_equal; f_equal; lia.
    + f_equal; f_equal; lia.
Qed.

Lemma proof_verifies (d : nat) (l : list Bytes) (i : nat) (mix : Bytes) :
  i < 2 ^ d ->
  merkle_root_from_branch (nth i l (zero_hash 0)) (generate_proof d l i ++ [mix]) i 0 =
  hash32_concat (tree_root d l) mix.
Proof.
  intros Hi. unfold generate_proof. rewrite merkle_root_from_branch_app.
  cbv zeta. rewrite length_map, length_seq, Nat.add_0_l.
  pose proof (climb_levels l i d 0) as E. simpl Nat.add in E.
  change (Nat.shiftr i 0) with i in E. change (level 0 l) with l in E.
  rewrite E.
  assert (Hs : Nat.shiftr i d = 0).
  { rewrite Nat.shiftr_div_pow2. apply Nat.div_small. exact Hi. }
  rewrite Hs. reflexivity.
Qed.

(** ** Inserting and reading back *)

Lemma insert_logs_in_order (ds : list DepositData) (t : Tree) :
  insert_logs t (mk_logs (leaf_count t) ds) =
  (Ok tt, mkTree (logs t ++ mk_logs (leaf_count t) ds) (leaves t ++ map deposit_leaf ds)).
Proof.
  revert t. induction ds as [|d ds IH]; intros t.
  - simpl. rewrite !app_nil_r. destruct t; reflexivity.
  - cbn [mk_logs insert_logs]. unfold insert_log. cbn [index].
    rewrite N.eqb_refl.
    set (t' := mkTree (logs t ++ [mkDepositLog (N.of_nat (leaf_count t)) d])
                      (leaves t ++ [deposit_leaf d])).
    assert (Hc : leaf_count t' = S (leaf_count t)).
    { unfold t', leaf_count. simpl. rewrite length_app. simpl. lia. }
    change (insert_logs t' (mk_logs (S (leaf_count t)) ds) =
      (Ok tt, mkTree (logs t ++ mk_logs (leaf_count t) (d :: ds))
                     (leaves t ++ map deposit_leaf (d :: ds)))).
    rewrite <- Hc, IH, Hc. unfold t'. cbn [logs leaves mk_logs map]. rewrite <- !app_assoc. reflexivity.
Qed.

Lemma mk_logs_data (n : nat) (ds : list DepositData) (j : nat) (dflt : DepositLog) :
  j < length ds ->
  deposit_data (nth j (mk_logs n ds) dflt) = nth j ds (deposit_data dflt).
Proof.
  revert n j. induction ds as [|d ds IH]; intros n j Hj; [simpl in Hj; lia|].
  destruct j as [|j]; [reflexivity|]. simpl. apply IH. simpl in Hj. lia.
Qed.

Lemma nth_error_map_seq {A} (f : nat -> A) (a n j : nat) (x : A) :
  nth_error (map f (seq a n)) j = Some x -> j < n /\ x = f (a + j).
Proof.
  revert a j. induction n as [|n IH]; intros a j E; [destruct j; discriminate|].
  destruct j as [|j]; simpl in E.
  - inversion E; subst. rewrite Nat.add_0_r. split; [lia|reflexivity].
  - destruct (IH (S a) j E) as [Hj ->]. split; [lia|]. f_equal. lia.
Qed.

(** The consistency of the tree at any depth [d]: after inserting the
    deposits [ds] in order, [get_deposits(0..n, n, d)] returns the root of
    the height-[d] subtree mixed in with [n], and proofs of [d + 1]
    elements that verify against it. *)
Lemma consistency_at_depth (d : nat) (ds : list DepositData) :
  length ds <= 2 ^ d ->
  exists t root deps,
    insert_logs empty_tree (mk_logs 0 ds) = (Ok tt, t) /\
    get_deposits t 0 (N.of_nat (length ds)) (N.of_nat (length ds)) d = Ok (root, deps) /\
    root = hash32_concat (subtree_root d (map deposit_leaf ds)) (int_to_bytes32 (N.of_nat (length ds))) /\
    length deps = length ds /\
    forall j dep, nth_error deps j = Some dep ->
      nth_error ds j = Some (data dep) /\ length (proof dep) = S d /\
      verify_merkle_proof (deposit_leaf (data dep)) (proof dep) (S d) j root = true.
Proof.
  intros Hlen.
  pose proof (insert_logs_in_order ds empty_tree) as Ei.
  change (leaf_count empty_tree) with 0 in Ei. cbn [logs leaves empty_tree] in Ei.
  rewrite !app_nil_l in Ei.
  set (n := N.of_nat (length ds)) in *.
  set (ls := map deposit_leaf ds) in *.
  set (dflt := mkDepositLog 0 empty_deposit_data).
  set (F := fun i => mkDeposit (deposit_data (nth i (mk_logs 0 ds) dflt))
                               (generate_proof d ls i ++ [int_to_bytes32 n])).
  assert (Hls : length ls = length ds) by apply length_map.
  assert (G : get_deposits (mkTree (mk_logs 0 ds) ls) 0 n n d =
              Ok (root_at d n ls, map F (seq 0 (length ds)))).
  { unfold get_deposits, leaf_count. cbn [leaves logs]. rewrite Hls.
    unfold n. rewrite N.ltb_irrefl, N.sub_0_r, Nat2N.id.
    rewrite firstn_all2 by lia. reflexivity. }
  exists (mkTree (mk_logs 0 ds) ls), (root_at d n ls), (map F (seq 0 (length ds))).
  split; [exact Ei|]. split; [exact G|].
  split; [unfold root_at; rewrite tree_root_subtree_root by lia; reflexivity|].
  split; [rewrite length_map, length_seq; reflexivity|].
  intros j dep Hj. apply nth_error_map_seq in Hj as [Hj ->]. rewrite Nat.add_0_l.
  cbn [data proof]. unfold F. cbn [data proof].
  rewrite mk_logs_data by exact Hj. cbn [deposit_data dflt].
  split; [apply nth_error_nth'; exact Hj|].
  assert (Hp : length (generate_proof d ls j ++ [int_to_bytes32 n]) = S d).
  { unfold generate_proof. rewrite length_app, length_map, length_seq. simpl. lia. }
  split; [exact Hp|].
  unfold verify_merkle_proof. rewrite Hp, Nat.eqb_refl. simpl andb.
  apply bool_decide_eq_true.
  replace (deposit_leaf (nth j ds empty_deposit_data)) with (nth j ls (zero_hash 0)).
  - apply proof_verifies. lia.
  - unfold ls. rewrite (nth_indep _ (zero_hash 0) (deposit_leaf empty_deposit_data))
      by (rewrite length_map; exact Hj).
    apply map_nth.
Qed.

(** C4: for every list of deposits [ds] that fits the depth-32 tree,
    inserting their logs with indices [0 .. n - 1] into an empty tree
    succeeds, and [get_deposits(0..n, n, 32)] returns the root the deposit
    contract reports after the [n]-th deposit (the depth-32 subtree root
    mixed in with [n]) and, for each deposit [j], its data and a proof of
    33 elements that verifies against that root at depth 33. *)
Theorem consistency (ds : list DepositData) :
  (N.of_nat (length ds) <= 2 ^ 32)%N ->
  exists t root deps,
    insert_logs empty_tree (mk_logs 0 ds) = (Ok tt, t) /\
    get_deposits t 0 (N.of_nat (length ds)) (N.of_nat (length ds)) 32 = Ok (root, deps) /\
    root = contract_deposit_root ds /\
    length deps = length ds /\
    forall j dep, nth_error deps j = Some dep ->
      nth_error ds j = Some (data dep) /\ length (proof dep) = 33 /\
      verify_merkle_proof (deposit_leaf (data dep)) (proof dep) 33 j root = true.
Proof.
  intros Hn. apply consistency_at_depth.
  change (2 ^ 32)%N with (2 ^ N.of_nat 32)%N in Hn. rewrite pow2_N in Hn. lia.
Qed.

(** C5: [insert_log(log)] fails with [OutOfOrderInsert] exactly when
    [log.index] differs from the leaf count, and then the tree, its leaf
    count and its root are those before the call. *)
Theorem insert_log_out_of_order (t : Tree) (log : DepositLog) :
  (fst (insert_log t log) = Err OutOfOrderInsert <-> index log <> N.of_nat (leaf_count t)) /\
  (fst (insert_log t log) = Err OutOfOrderInsert ->
     snd (insert_log t log) = t /\
     leaf_count (snd (insert_log t log)) = leaf_count t /\
     deposit_root (snd (insert_log t log)) = deposit_root t).
Proof.
  unfold insert_log. destruct (N.eqb_spec (index log) (N.of_nat (leaf_count t))) as [E|E];
    simpl; split; try split; intros; auto; try discriminate; congruence.
Qed.

End Merkle.

Example toy_proofs_verify :
  match insert_logs toy_leaf empty_tree (mk_logs 0 toy_deposits) with
  | (Ok _, t) =>
      match get_deposits toy_hash t 0 3 3 32 with
      | Ok (root, deps) =>
          root = contract_deposit_root toy_hash toy_leaf toy_deposits /\
          forallb (fun p => verify_merkle_proof toy_hash (toy_leaf (data p.2)) (proof p.2) 33 p.1 root)
            (combine (seq 0 3) deps) = true
      | Err _ => False
      end
  | (Err _, _) => False
  end.
Proof. vm_compute. split; reflexivity. Qed.

Lemma consistency_witness :
  exists t root deps,
    insert_logs toy_leaf empty_tree (mk_logs 0 toy_deposits) = (Ok tt, t) /\
    get_deposits toy_hash t 0 (N.of_nat (length toy_deposits)) (N.of_nat (length toy_deposits)) 32
      = Ok (root, deps) /\
    root = contract_deposit_root toy_hash toy_leaf toy_deposits /\
    length deps = length toy_deposits /\
    forall j dep, nth_error deps j = Some dep ->
      nth_error toy_deposits j = Some (data dep) /\ length (proof dep) = 33 /\
      verify_merkle_proof toy_hash (toy_leaf (data dep)) (proof dep) 33 j root = true.
Proof. apply (consistency toy_hash toy_leaf toy_deposits). vm_compute. discriminate. Defined.

End DepositTreeFacts.
